(** * Simple Notes: the note store, its persistence gateway, the write
      coalescer and the preview renderer of [notes_frontend/src/App.js]

    The development embeds the functions of [App.js] as Rocq functions and
    proves the properties of the design document about them.

    - JavaScript strings are sequences of UTF-16 code units: [jsstring] is
      [list N], and [u "..."] writes an ASCII literal as such a sequence.
    - A note is a record with every field present and of its type, as the
      application writes it; a time stamp is modelled by its time value
      (what [new Date(x)] yields, in milliseconds), a [Z].
    - State is passed explicitly: the hooks [useState] and [useRef] become
      fields of a record, the clock and the answers of the host become
      arguments.
    - Code that can throw returns a [result]; [try]/[catch] is a function
      on results.
    - Library functions the source calls but does not define
      ([String.prototype.toLowerCase], [JSON.parse]) are parameters; the
      timers of the host ([setTimeout], [clearTimeout]) are modelled by a
      list of pending timers and a logical clock. *)

From Stdlib Require Import String Ascii.
From Stdlib Require Import List ZArith NArith Bool Lia.
From Stdlib Require Import Permutation Sorted.
Import ListNotations.

Set Implicit Arguments.

(* ================================================================== *)
(** * Part I: the embedding *)
(* ================================================================== *)

(** ** JavaScript strings *)

Definition jsstring := list N.

Definition u (s : string) : jsstring :=
  map N_of_ascii (list_ascii_of_string s).

(** [WhiteSpace] and [LineTerminator] of ECMAScript: the class [\s] of a
    regular expression, and what [trim] strips. *)
Definition is_ws (c : N) : bool :=
  ((9 <=? c) && (c <=? 13) || (c =? 32) || (c =? 160) || (c =? 5760)
   || (8192 <=? c) && (c <=? 8202) || (c =? 8232) || (c =? 8233)
   || (c =? 8239) || (c =? 8287) || (c =? 12288) || (c =? 65279))%N.

(** What [.] does not match (no [s] flag): the line terminators. *)
Definition is_line_terminator (c : N) : bool :=
  ((c =? 10) || (c =? 13) || (c =? 8232) || (c =? 8233))%N.

Fixpoint drop_ws (s : jsstring) : jsstring :=
  match s with
  | c :: t => if is_ws c then drop_ws t else s
  | [] => []
  end.

(** [s.trim()] *)
Definition trim (s : jsstring) : jsstring :=
  rev (drop_ws (rev (drop_ws s))).

(** [strip_prefix p s] is [Some r] when [s = p ++ r]. *)
Fixpoint strip_prefix (p s : jsstring) : option jsstring :=
  match p, s with
  | [], _ => Some s
  | a :: p', b :: s' => if (a =? b)%N then strip_prefix p' s' else None
  | _ :: _, [] => None
  end.

Definition startsWith (p s : jsstring) : bool :=
  match strip_prefix p s with Some _ => true | None => false end.

(** [s.includes(q)] *)
Fixpoint includes (q s : jsstring) : bool :=
  startsWith q s ||
  match s with
  | _ :: t => includes q t
  | [] => false
  end.

(** [text.split(/\n/)] *)
Fixpoint split_lines (s : jsstring) : list jsstring :=
  match s with
  | [] => [[]]
  | c :: t =>
      if (c =? 10)%N then [] :: split_lines t
      else match split_lines t with
           | h :: r => (c :: h) :: r
           | [] => [[c]]
           end
  end.

(** [lines.join(sep)] *)
Fixpoint join (sep : jsstring) (ls : list jsstring) : jsstring :=
  match ls with
  | [] => []
  | [x] => x
  | x :: r => x ++ sep ++ join sep r
  end.

(** [s.replace(/c/g, rep)] for a one-character pattern. *)
Definition replace_char (c : N) (rep : jsstring) (s : jsstring) : jsstring :=
  flat_map (fun x => if (x =? c)%N then rep else [x]) s.

(** A string of white space only. *)
Definition all_ws (s : jsstring) : Prop := Forall (fun c => is_ws c = true) s.

(** A string without a line feed. *)
Definition one_line (s : jsstring) : Prop := Forall (fun c => c <> 10%N) s.

(** ** The markdown renderer *)

Module Markdown.

Definition AMP : N := 38.
Definition LT : N := 60.
Definition GT : N := 62.
Definition STAR : N := 42.
Definition BACKTICK : N := 96.

(** [esc]: the three replacements, in the order of the source. *)
Definition esc (s : jsstring) : jsstring :=
  replace_char GT (u "&gt;")
    (replace_char LT (u "&lt;")
       (replace_char AMP (u "&amp;") s)).

(** The regular expression [/^<hashes>\s+/]: the rest of the line after
    the match ([\s+] is greedy), or [None] when it does not match. *)
Definition match_heading (hashes line : jsstring) : option jsstring :=
  match strip_prefix hashes line with
  | Some (c :: t) => if is_ws c then Some (drop_ws t) else None
  | _ => None
  end.

(** [/^<hashes>\s+/.test(line)] *)
Definition test_heading (hashes line : jsstring) : bool :=
  match match_heading hashes line with Some _ => true | None => false end.

(** [line.replace(/^<hashes>\s+/, '')] *)
Definition strip_heading (hashes line : jsstring) : jsstring :=
  match match_heading hashes line with Some r => r | None => line end.

(** The part [(.+?)<close>] of an inline pattern once one character of the
    group is taken: the lazy quantifier stops at the first place where
    [close] follows, and gives up at a line terminator or at the end. The
    result is the rest of the group and what follows the match. *)
Fixpoint lazy_more (close s : jsstring) : option (jsstring * jsstring) :=
  match strip_prefix close s with
  | Some r => Some ([], r)
  | None =>
      match s with
      | c :: t =>
          if is_line_terminator c then None
          else match lazy_more close t with
               | Some (g, r) => Some (c :: g, r)
               | None => None
               end
      | [] => None
      end
  end.

(** A match of [/<open>(.+?)<close>/] at the start of [s]: the group and
    what follows the match. *)
Definition match_at (open close s : jsstring) : option (jsstring * jsstring) :=
  match strip_prefix open s with
  | Some (c :: t) =>
      if is_line_terminator c then None
      else match lazy_more close t with
           | Some (g, r) => Some (c :: g, r)
           | None => None
           end
  | _ => None
  end.

(** [s.replace(/<open>(.+?)<close>/g, '<pre>$1<post>')]: scan from the left;
    at a match emit the replacement and resume after the match ([skip]
    counts the characters of the match still to pass over), otherwise copy
    one character. *)
Fixpoint replace_go (open close pre post : jsstring) (skip : nat)
    (s : jsstring) : jsstring :=
  match s with
  | [] => []
  | c :: t =>
      match skip with
      | S k => replace_go open close pre post k t
      | O =>
          match match_at open close s with
          | Some (g, _) =>
              pre ++ g ++ post ++
              replace_go open close pre post
                (length open + length g + length close - 1) t
          | None => c :: replace_go open close pre post 0 t
          end
      end
  end.

Definition replace_delimited (open close pre post s : jsstring) : jsstring :=
  replace_go open close pre post 0 s.

(** The three inline replacements, in the order of the source. *)
Definition inline (l : jsstring) : jsstring :=
  replace_delimited [BACKTICK] [BACKTICK] (u "<code>") (u "</code>")
    (replace_delimited [STAR] [STAR] (u "<em>") (u "</em>")
       (replace_delimited [STAR; STAR] [STAR; STAR]
          (u "<strong>") (u "</strong>") l)).

(** The function mapped over the lines. *)
Definition render_line (line : jsstring) : jsstring :=
  let l := esc line in
  if test_heading (u "###") line then
    u "<h3>" ++ esc (strip_heading (u "###") line) ++ u "</h3>"
  else if test_heading (u "##") line then
    u "<h2>" ++ esc (strip_heading (u "##") line) ++ u "</h2>"
  else if test_heading (u "#") line then
    u "<h1>" ++ esc (strip_heading (u "#") line) ++ u "</h1>"
  else if (length (trim l) =? 0)%nat then u "<br/>"
  else u "<p>" ++ inline l ++ u "</p>".

Definition renderBasicMarkdown (text : jsstring) : jsstring :=
  join [10%N] (map render_line (split_lines text)).

(** *** The renderer that escapes first

    The design document describes the renderer as escaping each line
    before anything else is done; in this version every later step (the
    test for a heading, the stripping of its prefix, the test for a blank
    line, the inline patterns) reads the escaped line only. *)

Definition render_escaped_line (l : jsstring) : jsstring :=
  if test_heading (u "###") l then
    u "<h3>" ++ strip_heading (u "###") l ++ u "</h3>"
  else if test_heading (u "##") l then
    u "<h2>" ++ strip_heading (u "##") l ++ u "</h2>"
  else if test_heading (u "#") l then
    u "<h1>" ++ strip_heading (u "#") l ++ u "</h1>"
  else if (length (trim l) =? 0)%nat then u "<br/>"
  else u "<p>" ++ inline l ++ u "</p>".

Definition render_escape_first (text : jsstring) : jsstring :=
  join [10%N] (map (fun line => render_escaped_line (esc line)) (split_lines text)).

(** What [esc] makes of one character. *)
Definition esc_char (c : N) : jsstring :=
  if (c =? AMP)%N then u "&amp;"
  else if (c =? LT)%N then u "&lt;"
  else if (c =? GT)%N then u "&gt;"
  else [c].

(** A character that [esc] leaves alone. *)
Definition plain (c : N) : Prop := c <> AMP /\ c <> LT /\ c <> GT.

(** The characters that delimit the inline patterns. *)
Definition delim (c : N) : Prop := c = STAR \/ c = BACKTICK.

(** The tags that the renderer writes. *)
Definition tags : list jsstring :=
  [u "<h1>"; u "</h1>"; u "<h2>"; u "</h2>"; u "<h3>"; u "</h3>"; u "<br/>";
   u "<p>"; u "</p>"; u "<strong>"; u "</strong>"; u "<em>"; u "</em>";
   u "<code>"; u "</code>"].

(** A text in which [<] and [>] occur only as part of these tags. *)
Inductive well_tagged : jsstring -> Prop :=
| wt_nil : well_tagged []
| wt_char (c : N) (s : jsstring) :
    c <> LT -> c <> GT -> well_tagged s -> well_tagged (c :: s)
| wt_tag (t s : jsstring) :
    In t tags -> well_tagged s -> well_tagged (t ++ s).

(** A character that can stand inside an inline pattern unchanged: [esc]
    leaves it alone, it is no delimiter and no line terminator. *)
Definition ordinary (c : N) : Prop :=
  plain c /\ ~ delim c /\ is_line_terminator c = false.

(** The prefix and the tags of a heading of level [k]. *)
Definition hashes (k : nat) : jsstring := repeat 35%N k.

Definition heading_open (k : nat) : jsstring :=
  u "<h" ++ [(48 + N.of_nat k)%N] ++ u ">".

Definition heading_close (k : nat) : jsstring :=
  u "</h" ++ [(48 + N.of_nat k)%N] ++ u ">".

End Markdown.

(** ** The note store *)

Fixpoint str_eqb (a b : jsstring) : bool :=
  match a, b with
  | [], [] => true
  | x :: a', y :: b' => (x =? y)%N && str_eqb a' b'
  | _, _ => false
  end.

(** [Array.prototype.sort(cmp)]: the sort is stable, and [a] comes before
    [b] when [cmp a b < 0]. For a consistent comparator that fixes the
    result; it is computed here by insertion from the right, an element
    going before the first one it does not have to follow. *)
Section Sort.
Variable A : Type.
Variable cmp : A -> A -> Z.

Fixpoint insert_by (x : A) (l : list A) : list A :=
  match l with
  | [] => [x]
  | y :: l' => if (cmp x y <=? 0)%Z then x :: l else y :: insert_by x l'
  end.

Fixpoint sort_by (l : list A) : list A :=
  match l with
  | [] => []
  | x :: l' => insert_by x (sort_by l')
  end.
End Sort.

Module Store.

Record Note := mkNote {
  id : jsstring;
  title : jsstring;
  content : jsstring;
  createdAt : Z;
  updatedAt : Z;
  pinned : bool;
  color : option jsstring
}.

(** A partial object: the fields it names. *)
Record Patch := mkPatch {
  p_id : option jsstring;
  p_title : option jsstring;
  p_content : option jsstring;
  p_createdAt : option Z;
  p_updatedAt : option Z;
  p_pinned : option bool;
  p_color : option (option jsstring)
}.

Definition or_else {A : Type} (o : option A) (d : A) : A :=
  match o with Some v => v | None => d end.

(** [{ ...n, ...p }], as the editor builds the argument of [updateNote]
    ([{ ...note, title: e.target.value }]). *)
Definition spread (n : Note) (p : Patch) : Note :=
  {| id := or_else (p_id p) (id n);
     title := or_else (p_title p) (title n);
     content := or_else (p_content p) (content n);
     createdAt := or_else (p_createdAt p) (createdAt n);
     updatedAt := or_else (p_updatedAt p) (updatedAt n);
     pinned := or_else (p_pinned p) (pinned n);
     color := or_else (p_color p) (color n) |}.

Definition no_patch : Patch := mkPatch None None None None None None None.

(** [{ ...next, updatedAt: now }] *)
Definition stamp (next : Note) (now : Z) : Note :=
  {| id := id next;
     title := title next;
     content := content next;
     createdAt := createdAt next;
     updatedAt := now;
     pinned := pinned next;
     color := color next |}.

(** [updateNote(next)]: the function given to [setNotes]; [now] is the
    reading of the clock. *)
Definition updateNote (next : Note) (now : Z) (prev : list Note) : list Note :=
  map (fun n => if str_eqb (id n) (id next) then stamp next now else n) prev.

(** [uid()]: [clock36] is [Date.now().toString(36)] and [random36] is
    [Math.random().toString(36)]. *)
Definition uid (clock36 random36 : jsstring) : jsstring :=
  clock36 ++ u "-" ++ firstn 6 (skipn 2 random36).

Record State := mkState {
  notes : list Note;
  activeId : option jsstring;
  search : jsstring
}.

(** [x || null] for [x] a string or [undefined]: the empty string is falsy. *)
Definition or_null (x : option jsstring) : option jsstring :=
  match x with
  | Some (_ :: _) => x
  | _ => None
  end.

(** [notes.find((n) => n.id === activeId) || null] *)
Definition activeNote (st : State) : option Note :=
  match activeId st with
  | Some a => find (fun n => str_eqb (id n) a) (notes st)
  | None => None
  end.

(** [handleNewNote]: what [uid] draws and the two readings of the clock
    are inputs. *)
Definition handleNewNote (clock36 random36 : jsstring) (now1 now2 : Z)
    (st : State) : State :=
  let n := mkNote (uid clock36 random36) [] [] now1 now2 false None in
  {| notes := n :: notes st; activeId := Some (id n); search := search st |}.

(** [(a, b) => new Date(b.updatedAt) - new Date(a.updatedAt)] *)
Definition sortByUpdated (a b : Note) : Z := updatedAt b - updatedAt a.

(** The memo [sorted] of [Sidebar]. *)
Definition Sidebar_sorted (ns : list Note) : list Note :=
  let pinned_ := filter (fun n => pinned n) ns in
  let others := filter (fun n => negb (pinned n)) ns in
  sort_by sortByUpdated pinned_ ++ sort_by sortByUpdated others.

Definition is_empty (s : jsstring) : bool :=
  match s with [] => true | _ => false end.

Section Search.
Variable toLowerCase : jsstring -> jsstring.

(** The predicate given to [filter] in [filteredNotes]. *)
Definition matches (q : jsstring) (n : Note) : bool :=
  let t := toLowerCase (title n) in
  let c := toLowerCase (content n) in
  includes q t || includes q c.

(** The memo [filteredNotes] of [App]. *)
Definition filteredNotes (ns : list Note) (search : jsstring) : list Note :=
  let q := toLowerCase (trim search) in
  if is_empty q then ns else filter (matches q) ns.

(** What the sidebar lists: [<Sidebar notes={filteredNotes} ... />]. *)
Definition visibleNotes (ns : list Note) (search : jsstring) : list Note :=
  Sidebar_sorted (filteredNotes ns search).
End Search.

(** [toLowerCase] on the letters of ASCII, for strings made of ASCII
    characters. *)
Definition lower_ascii (s : jsstring) : jsstring :=
  map (fun c => if ((65 <=? c) && (c <=? 90))%N then (c + 32)%N else c) s.

(** [handleDeleteNote]; [ok] is the answer of [window.confirm]. *)
Definition handleDeleteNote (ok : bool) (st : State) : State :=
  match activeNote st with
  | None => st
  | Some a =>
      if negb ok then st
      else
        let keep := fun n => negb (str_eqb (id n) (id a)) in
        let remaining := filter keep (notes st) in
        let nextActive :=
          or_null (option_map id (hd_error (sort_by sortByUpdated remaining))) in
        {| notes := filter keep (notes st);
           activeId := nextActive;
           search := search st |}
  end.

(** [handleTogglePin] *)
Definition handleTogglePin (now : Z) (st : State) : State :=
  match activeNote st with
  | None => st
  | Some a =>
      {| notes :=
           updateNote (spread a (mkPatch None None None None None
                                   (Some (negb (pinned a))) None))
             now (notes st);
         activeId := activeId st;
         search := search st |}
  end.

(** [handleSelectNote] *)
Definition handleSelectNote (i : jsstring) (st : State) : State :=
  {| notes := notes st; activeId := Some i; search := search st |}.

(** *** Orders on the list shown *)

(** Most recent [updatedAt] first. *)
Definition newest_first : list Note -> Prop :=
  StronglySorted (fun a b => (updatedAt b <= updatedAt a)%Z).

(** Two notes have the same rank when neither has to precede the other:
    they are both pinned or both not, and have the same [updatedAt]. *)
Definition same_rank (p : bool) (t : Z) (n : Note) : bool :=
  Bool.eqb (pinned n) p && (updatedAt n =? t)%Z.

(** *** Sample notes, payloads and states *)

Definition noteA : Note := mkNote (u "a") (u "T") (u "C") 1 1 false None.

Definition patch_createdAt : Patch :=
  mkPatch None None None (Some 99%Z) None None None.

Definition patch_id_title : Patch :=
  mkPatch (Some (u "zzz")) (Some (u "X")) None None None None None.

Definition patch_title_pinned : Patch :=
  mkPatch None (Some (u "X")) None None None (Some true) None.

Definition noteP1 : Note := mkNote (u "A") (u "a") (u "has foo") 0 1 true None.
Definition noteP2 : Note := mkNote (u "B") (u "b") (u "bar") 0 2 true None.
Definition noteU3 : Note := mkNote (u "C") (u "c") (u "baz") 0 3 false None.

Definition noteX : Note := mkNote (u "x") (u "X") [] 0 5 false None.
Definition noteY : Note := mkNote (u "y") (u "Y") [] 0 9 false None.
Definition noteZ : Note := mkNote (u "z") (u "Z") [] 0 9 true None.

Definition stXYZ : State := mkState [noteX; noteY; noteZ] (Some (u "x")) [].

Definition stA : State := mkState [noteA] (Some (u "a")) [].

Definition noteE : Note := mkNote [] (u "E") [] 0 3 false None.

Definition stXE : State := mkState [noteX; noteE] (Some (u "x")) [].

(** *** The rest of the component *)

(** The initial state of [App], for the notes that [loadNotes] gave:
    [useState(() => loadNotes())],
    [useState(() => (loadNotes()[0]?.id || null))] and [useState('')]. *)
Definition initialState (loaded : list Note) : State :=
  {| notes := loaded;
     activeId := or_null (option_map id (hd_error loaded));
     search := [] |}.

(** [setSearch] *)
Definition setSearch (text : jsstring) (st : State) : State :=
  {| notes := notes st; activeId := activeId st; search := text |}.

Definition patch_title (value : jsstring) : Patch :=
  mkPatch None (Some value) None None None None None.

Definition patch_content (value : jsstring) : Patch :=
  mkPatch None None (Some value) None None None None.

(** [handleTitle] of [NoteEditor], with [onChange={updateNote}] and
    [note={activeNote}]: [onChange({ ...note, title: e.target.value })].
    Without a note the editor shows no input. *)
Definition handleTitle (value : jsstring) (now : Z) (st : State) : State :=
  match activeNote st with
  | None => st
  | Some note =>
      {| notes := updateNote (spread note (patch_title value)) now (notes st);
         activeId := activeId st;
         search := search st |}
  end.

(** [handleContent] of [NoteEditor]. *)
Definition handleContent (value : jsstring) (now : Z) (st : State) : State :=
  match activeNote st with
  | None => st
  | Some note =>
      {| notes := updateNote (spread note (patch_content value)) now (notes st);
         activeId := activeId st;
         search := search st |}
  end.

(** The title of an item of the sidebar:
    [n.title?.trim() ? n.title.trim() : 'Untitled']. *)
Definition item_title (n : Note) : jsstring :=
  if is_empty (trim (title n)) then u "Untitled" else trim (title n).

(** The key handler of [App]: the functions it calls for an event, in
    the order it calls them. *)
Record KeyEvent := mkKeyEvent {
  ctrlKey : bool;
  metaKey : bool;
  key : jsstring
}.

Inductive command := Save | New | Delete.

Section Intents.
Variable toLowerCase : jsstring -> jsstring.

Definition handler (e : KeyEvent) : list command :=
  let isSave := (ctrlKey e || metaKey e) && str_eqb (toLowerCase (key e)) (u "s") in
  (if isSave then [Save] else []) ++
  (if negb (ctrlKey e) && negb (metaKey e) then
     (if str_eqb (toLowerCase (key e)) (u "n") then [New] else []) ++
     (if str_eqb (key e) (u "Delete") then [Delete] else [])
   else []).

(** What the user can do to the state through the components: the
    buttons and the search field of [TopNav] and [Sidebar], the items of
    the sidebar (the [k]-th one calls [onSelect] with the id of the
    [k]-th note listed), and the inputs of [NoteEditor]. *)
Inductive intent :=
| NewNote (clock36 random36 : jsstring) (now1 now2 : Z)
| EditTitle (value : jsstring) (now : Z)
| EditContent (value : jsstring) (now : Z)
| TogglePin (now : Z)
| DeleteNote (ok : bool)
| SelectItem (k : nat)
| Search (text : jsstring).

Definition dispatch (st : State) (i : intent) : State :=
  match i with
  | NewNote clock36 random36 now1 now2 =>
      handleNewNote clock36 random36 now1 now2 st
  | EditTitle value now => handleTitle value now st
  | EditContent value now => handleContent value now st
  | TogglePin now => handleTogglePin now st
  | DeleteNote ok => handleDeleteNote ok st
  | SelectItem k =>
      match nth_error (visibleNotes toLowerCase (notes st) (search st)) k with
      | Some n => handleSelectNote (id n) st
      | None => st
      end
  | Search text => setSearch text st
  end.

(** Every id that [uid] makes is new when it is made. *)
Fixpoint fresh_ids (st : State) (intents : list intent) : Prop :=
  match intents with
  | [] => True
  | i :: r =>
      match i with
      | NewNote clock36 random36 _ _ =>
          ~ In (uid clock36 random36) (map id (notes st))
      | _ => True
      end /\ fresh_ids (dispatch st i) r
  end.

End Intents.

(** The ids of the collection are distinct and not empty. *)
Definition ids_ok (st : State) : Prop :=
  NoDup (map id (notes st)) /\ Forall (fun i => i <> []) (map id (notes st)).

(** The active id is none or the id of a note of the collection. *)
Definition pointer_ok (st : State) : Prop :=
  match activeId st with
  | Some a => In a (map id (notes st))
  | None => True
  end.

End Store.

(** ** The debounced callback *)

Module Debounce.
Section Timers.
(** The type of the argument of the callback (the notes to save). *)
Variable A : Type.

Record Timer := mkTimer {
  timer_id : positive;
  due : Z;
  args : A
}.

(** The timers of the host, the reference cell of the hook, and the calls
    of the callback so far (oldest first). *)
Record World := mkWorld {
  clock : Z;
  next_id : positive;
  pending : list Timer;
  timeoutRef : option positive;
  calls : list A
}.

Definition init (t0 : Z) : World := mkWorld t0 1%positive [] None [].

(** [setTimeout(() => memoCb(...args), delay)]: a negative delay counts
    as zero; the handle is a positive integer. *)
Definition setTimeout (a : A) (delay : Z) (w : World) : positive * World :=
  (next_id w,
   mkWorld (clock w) (Pos.succ (next_id w))
     (pending w ++ [mkTimer (next_id w) (clock w + Z.max 0 delay) a])
     (timeoutRef w) (calls w)).

(** [clearTimeout(h)]; [None] is [null]. *)
Definition clearTimeout (h : option positive) (w : World) : World :=
  match h with
  | Some i =>
      mkWorld (clock w) (next_id w)
        (filter (fun t => negb (Pos.eqb (timer_id t) i)) (pending w))
        (timeoutRef w) (calls w)
  | None => w
  end.

Definition set_ref (h : option positive) (w : World) : World :=
  mkWorld (clock w) (next_id w) (pending w) h (calls w).

(** The function [debounced] of [useDebouncedCallback]. *)
Definition debounced (delay : Z) (a : A) (w : World) : World :=
  let w1 := match timeoutRef w with
            | Some i => clearTimeout (Some i) w
            | None => w
            end in
  let (h, w2) := setTimeout a delay w1 in
  set_ref (Some h) w2.

(** The cleanup of the effect: [() => clearTimeout(timeoutRef.current)]. *)
Definition unmount (w : World) : World :=
  clearTimeout (timeoutRef w) w.

(** The host runs, up to time [t], the timers that are due, earliest
    first; each one calls the callback on its argument. *)
Definition advance (t : Z) (w : World) : World :=
  let fired := sort_by (fun a b => due a - due b)%Z
                 (filter (fun x => (due x <=? t)%Z) (pending w)) in
  mkWorld (Z.max (clock w) t) (next_id w)
    (filter (fun x => negb (due x <=? t)%Z) (pending w))
    (timeoutRef w)
    (calls w ++ map args fired).

Inductive event :=
| Schedule (at_ : Z) (a : A)
| Teardown (at_ : Z)
| Wait (until : Z).

Definition step (delay : Z) (w : World) (e : event) : World :=
  match e with
  | Schedule t a => debounced delay a (advance t w)
  | Teardown t => unmount (advance t w)
  | Wait t => advance t w
  end.

Definition run (delay : Z) (es : list event) (w : World) : World :=
  fold_left (step delay) es w.

(** A burst: calls at times that do not decrease, each less than the
    quiet period after the one before; [t] is the time of the call
    before the first of [cs]. *)
Fixpoint rapid (delay t : Z) (cs : list (Z * A)) : Prop :=
  match cs with
  | [] => True
  | c :: r => (t <= fst c /\ fst c - t < delay /\ rapid delay (fst c) r)%Z
  end.

Definition schedule_of (c : Z * A) : event := Schedule (fst c) (snd c).

(** One timer is pending, due at [d] with argument [a], and the
    reference cell holds its handle. *)
Definition armed (w : World) (d : Z) (a : A) : Prop :=
  exists h, pending w = [mkTimer h d a] /\ timeoutRef w = Some h.

(** Every pending timer is the one the reference cell holds. *)
Definition owned (w : World) : Prop :=
  forall t, In t (pending w) -> timeoutRef w = Some (timer_id t).

(** The arguments of the calls of the debounced function, in order. *)
Fixpoint scheduled (es : list event) : list A :=
  match es with
  | [] => []
  | Schedule _ a :: r => a :: scheduled r
  | _ :: r => scheduled r
  end.

(** No timer is pending, or one, which the reference cell holds. *)
Definition single (w : World) : Prop :=
  pending w = [] \/
  exists t, pending w = [t] /\ timeoutRef w = Some (timer_id t).

(** The calls so far and the argument that waits were all scheduled. *)
Definition accounted (w : World) (seen : list A) : Prop :=
  incl (calls w ++ map args (pending w)) seen /\
  (length (calls w) + length (pending w) <= length seen)%nat.

(** Calls that are each at least the quiet period after the one
    before; [t] is the time of the call before the first of [cs]. *)
Fixpoint spaced (delay t : Z) (cs : list (Z * A)) : Prop :=
  match cs with
  | [] => True
  | c :: r => (t + delay <= fst c /\ spaced delay (fst c) r)%Z
  end.

End Timers.

Arguments Schedule {A} at_ a.
Arguments Teardown {A} at_.
Arguments Wait {A} until.

End Debounce.

(** ** The component [App] *)

Module App.

(** [useDebouncedCallback((nextNotes) => saveNotes(nextNotes), 300, [notes])]:
    the callback saves the notes it is given, and the log of its calls is
    the log of the saves. *)
Definition debouncedSave (nextNotes : list Store.Note)
    (w : Debounce.World (list Store.Note)) : Debounce.World (list Store.Note) :=
  Debounce.debounced 300 nextNotes w.

(** The effect [useEffect(() => { debouncedSave(notes) }, [notes, debouncedSave])]
    after the notes have changed at time [t]. *)
Definition notes_changed (t : Z) (notes : list Store.Note)
    (w : Debounce.World (list Store.Note)) : Debounce.World (list Store.Note) :=
  debouncedSave notes (Debounce.advance t w).

End App.

(** ** The persistence gateway *)

Module Storage.

(** A computation that returns or throws. *)
Inductive result (A : Type) :=
| Ok (a : A)
| Throw.
Arguments Throw {A}.

Definition bind {A B : Type} (m : result A) (k : A -> result B) : result B :=
  match m with Ok a => k a | Throw => Throw end.

Notation "x <- m ;; k" := (bind m (fun x => k))
  (at level 61, m at next level, right associativity).

(** [try { body } catch { handler }] *)
Definition try_catch {A : Type} (body : result A) (handler : result A) : result A :=
  match body with Ok a => Ok a | Throw => handler end.

#[local] Unset Elimination Schemes.
Inductive JSValue :=
| JNull
| JBool (b : bool)
| JNum (mantissa exponent : Z)
| JStr (s : jsstring)
| JArr (items : list JSValue)
| JObj (members : list (jsstring * JSValue)).
#[local] Set Elimination Schemes.

(** The entry [STORAGE_KEY] of [localStorage]. *)
Inductive Slot :=
| Unavailable
| Absent
| Present (raw : jsstring).

(** [localStorage.getItem(STORAGE_KEY)]; [None] is [null]. *)
Definition getItem (s : Slot) : result (option jsstring) :=
  match s with
  | Unavailable => Throw
  | Absent => Ok None
  | Present raw => Ok (Some raw)
  end.

(** [!raw] *)
Definition falsy (raw : option jsstring) : bool :=
  match raw with
  | Some (_ :: _) => false
  | _ => true
  end.

Section Load.
Variable JSON_parse : jsstring -> result JSValue.

(** The [try] block of [loadNotes]: [Some v] when it executes [return v],
    [None] when control leaves the block at its end. *)
Definition loadNotes_try (s : Slot) : result (option (list JSValue)) :=
  raw <- getItem s ;;
  if falsy raw then Ok (Some [])
  else
    parsed <- JSON_parse (match raw with Some r => r | None => [] end) ;;
    match parsed with
    | JArr items => Ok (Some items)
    | _ => Ok None
    end.

Definition loadNotes (s : Slot) : result (list JSValue) :=
  r <- try_catch (loadNotes_try s) (Ok None) ;;
  match r with
  | Some v => Ok v
  | None => Ok []
  end.
End Load.

(** [Array.isArray(v)] *)
Definition isArray (v : JSValue) : bool :=
  match v with JArr _ => true | _ => false end.

(** The states of the slot from which no array can be read: the storage
    cannot be read, the entry is missing or empty, its text is not JSON,
    or it is the text of a value that is not an array. *)
Definition undecodable (JSON_parse : jsstring -> result JSValue) (s : Slot) : Prop :=
  match s with
  | Unavailable => True
  | Absent => True
  | Present raw =>
      raw = [] \/ JSON_parse raw = Throw \/
      exists v, JSON_parse raw = Ok v /\ isArray v = false
  end.

(** [localStorage.setItem(STORAGE_KEY, text)]: a storage that cannot be
    reached throws; otherwise the host takes the text or throws (the
    quota), and [accepts] is what it decides. *)
Definition setItem (accepts : jsstring -> bool) (text : jsstring) (s : Slot) :
    result Slot :=
  match s with
  | Unavailable => Throw
  | Absent | Present _ => if accepts text then Ok (Present text) else Throw
  end.

Section Save.
Variable A : Type.
Variable JSON_stringify : A -> result jsstring.
Variable accepts : jsstring -> bool.

(** [saveNotes]: the slot after the call. *)
Definition saveNotes (notes : A) (s : Slot) : result Slot :=
  try_catch (text <- JSON_stringify notes ;; setItem accepts text s) (Ok s).
End Save.

End Storage.

(** ** A reader of JSON texts

    [JSON.parse] is a parameter of [loadNotes]. This reader of the JSON
    grammar (ECMA-404) instantiates it where a concrete run is wanted. A
    number is kept as the decimal [mantissa * 10 ^ exponent] of its
    literal, the members of an object in the order of the text. *)

Module Json.
Import Storage.

Definition is_json_ws (c : N) : bool :=
  ((c =? 32) || (c =? 9) || (c =? 10) || (c =? 13))%N.

Fixpoint skip_ws (s : jsstring) : jsstring :=
  match s with
  | c :: t => if is_json_ws c then skip_ws t else s
  | [] => []
  end.

Definition digit (c : N) : option Z :=
  if ((48 <=? c) && (c <=? 57))%N then Some (Z.of_N (c - 48)) else None.

Definition hex (c : N) : option N :=
  if ((48 <=? c) && (c <=? 57))%N then Some (c - 48)%N
  else if ((97 <=? c) && (c <=? 102))%N then Some (c - 87)%N
  else if ((65 <=? c) && (c <=? 70))%N then Some (c - 55)%N
  else None.

(** The digits at the front of [s]: their value after [acc], how many
    there are, and the rest. *)
Fixpoint digits (acc : Z) (count : Z) (s : jsstring) : Z * Z * jsstring :=
  match s with
  | c :: t =>
      match digit c with
      | Some d => digits (acc * 10 + d) (count + 1) t
      | None => (acc, count, s)
      end
  | [] => (acc, count, s)
  end.

Definition parse_int (s : jsstring) : option (Z * jsstring) :=
  match s with
  | c :: t =>
      if (c =? 48)%N then Some (0%Z, t)
      else match digit c with
           | Some d => let '(v, _, r) := digits d 1 t in Some (v, r)
           | None => None
           end
  | [] => None
  end.

Definition parse_frac (m : Z) (s : jsstring) : option (Z * Z * jsstring) :=
  match s with
  | c :: t =>
      if (c =? 46)%N then
        let '(v, k, r) := digits m 0 t in
        if (k =? 0)%Z then None else Some (v, (- k)%Z, r)
      else Some (m, 0%Z, s)
  | [] => Some (m, 0%Z, s)
  end.

Definition parse_exp (s : jsstring) : option (Z * jsstring) :=
  match s with
  | c :: t =>
      if ((c =? 101) || (c =? 69))%N then
        let '(sign, t') :=
          match t with
          | d :: t0 =>
              if (d =? 45)%N then ((-1)%Z, t0)
              else if (d =? 43)%N then (1%Z, t0)
              else (1%Z, t)
          | [] => (1%Z, t)
          end in
        let '(v, k, r) := digits 0 0 t' in
        if (k =? 0)%Z then None else Some ((sign * v)%Z, r)
      else Some (0%Z, s)
  | [] => Some (0%Z, s)
  end.

Definition parse_number (s : jsstring) : option (JSValue * jsstring) :=
  let '(sign, s1) :=
    match s with
    | c :: t => if (c =? 45)%N then ((-1)%Z, t) else (1%Z, s)
    | [] => (1%Z, s)
    end in
  match parse_int s1 with
  | Some (i, s2) =>
      match parse_frac i s2 with
      | Some (m, e1, s3) =>
          match parse_exp s3 with
          | Some (e2, s4) => Some (JNum (sign * m) (e1 + e2), s4)
          | None => None
          end
      | None => None
      end
  | None => None
  end.

Definition unescape (c : N) : option N :=
  if (c =? 34)%N then Some 34%N
  else if (c =? 92)%N then Some 92%N
  else if (c =? 47)%N then Some 47%N
  else if (c =? 98)%N then Some 8%N
  else if (c =? 102)%N then Some 12%N
  else if (c =? 110)%N then Some 10%N
  else if (c =? 114)%N then Some 13%N
  else if (c =? 116)%N then Some 9%N
  else None.

Definition cons_char (c : N) (r : option (jsstring * jsstring)) :
    option (jsstring * jsstring) :=
  match r with
  | Some (str, rest) => Some (c :: str, rest)
  | None => None
  end.

(** The characters of a string after its opening quote. *)
Fixpoint parse_chars (s : jsstring) : option (jsstring * jsstring) :=
  match s with
  | [] => None
  | c :: t =>
      if (c =? 34)%N then Some ([], t)
      else if (c =? 92)%N then
        match t with
        | e :: t' =>
            if (e =? 117)%N then
              match t' with
              | h1 :: h2 :: h3 :: h4 :: t'' =>
                  match hex h1, hex h2, hex h3, hex h4 with
                  | Some a, Some b, Some c', Some d =>
                      cons_char (((a * 16 + b) * 16 + c') * 16 + d)%N
                        (parse_chars t'')
                  | _, _, _, _ => None
                  end
              | _ => None
              end
            else match unescape e with
                 | Some x => cons_char x (parse_chars t')
                 | None => None
                 end
        | [] => None
        end
      else if (c <? 32)%N then None
      else cons_char c (parse_chars t)
  end.

Definition parse_literal (word : jsstring) (v : JSValue) (s : jsstring) :
    option (JSValue * jsstring) :=
  match strip_prefix word s with
  | Some r => Some (v, r)
  | None => None
  end.

Fixpoint parse_value (fuel : nat) (s : jsstring) : option (JSValue * jsstring) :=
  match fuel with
  | O => None
  | S f =>
      match skip_ws s with
      | [] => None
      | c :: t =>
          if (c =? 91)%N then
            match skip_ws t with
            | d :: r =>
                if (d =? 93)%N then Some (JArr [], r)
                else match parse_items f t with
                     | Some (vs, r') => Some (JArr vs, r')
                     | None => None
                     end
            | [] => None
            end
          else if (c =? 123)%N then
            match skip_ws t with
            | d :: r =>
                if (d =? 125)%N then Some (JObj [], r)
                else match parse_members f t with
                     | Some (ms, r') => Some (JObj ms, r')
                     | None => None
                     end
            | [] => None
            end
          else if (c =? 34)%N then
            match parse_chars t with
            | Some (str, r) => Some (JStr str, r)
            | None => None
            end
          else if (c =? 110)%N then parse_literal (u "null") JNull (c :: t)
          else if (c =? 116)%N then parse_literal (u "true") (JBool true) (c :: t)
          else if (c =? 102)%N then parse_literal (u "false") (JBool false) (c :: t)
          else parse_number (c :: t)
      end
  end

with parse_items (fuel : nat) (s : jsstring) : option (list JSValue * jsstring) :=
  match fuel with
  | O => None
  | S f =>
      match parse_value f s with
      | Some (v, r) =>
          match skip_ws r with
          | d :: r' =>
              if (d =? 44)%N then
                match parse_items f r' with
                | Some (vs, r'') => Some (v :: vs, r'')
                | None => None
                end
              else if (d =? 93)%N then Some ([v], r')
              else None
          | [] => None
          end
      | None => None
      end
  end

with parse_members (fuel : nat) (s : jsstring) :
    option (list (jsstring * JSValue) * jsstring) :=
  match fuel with
  | O => None
  | S f =>
      match skip_ws s with
      | q :: t =>
          if (q =? 34)%N then
            match parse_chars t with
            | Some (key, r) =>
                match skip_ws r with
                | col :: r1 =>
                    if (col =? 58)%N then
                      match parse_value f r1 with
                      | Some (v, r2) =>
                          match skip_ws r2 with
                          | d :: r3 =>
                              if (d =? 44)%N then
                                match parse_members f r3 with
                                | Some (ms, r4) => Some ((key, v) :: ms, r4)
                                | None => None
                                end
                              else if (d =? 125)%N then Some ([(key, v)], r3)
                              else None
                          | [] => None
                          end
                      | None => None
                      end
                    else None
                | [] => None
                end
            | None => None
            end
          else None
      | [] => None
      end
  end.

(** A text is a value between white space and nothing else; anything else
    is a [SyntaxError]. *)
Definition parse (raw : jsstring) : result JSValue :=
  match parse_value (2 * List.length raw + 2) raw with
  | Some (v, r) =>
      match skip_ws r with
      | [] => Ok v
      | _ :: _ => Throw
      end
  | None => Throw
  end.

(** *** A writer of JSON texts, to instantiate [JSON.stringify] *)

Definition hex_digit (n : N) : N :=
  if (n <? 10)%N then (48 + n)%N else (87 + n)%N.

Definition print_char (c : N) : jsstring :=
  if (c =? 34)%N then [92; 34]%N
  else if (c =? 92)%N then [92; 92]%N
  else if (c <? 32)%N then
    [92; 117; 48; 48; hex_digit (c / 16); hex_digit (c mod 16)]%N
  else [c].

Definition print_string (s : jsstring) : jsstring :=
  [34%N] ++ flat_map print_char s ++ [34%N].

Fixpoint print_pos_digits (fuel : nat) (n : N) (acc : jsstring) : jsstring :=
  match fuel with
  | O => acc
  | S f =>
      if (n <? 10)%N then (48 + n)%N :: acc
      else print_pos_digits f (n / 10)%N ((48 + n mod 10)%N :: acc)
  end.

Definition print_nat (n : N) : jsstring :=
  print_pos_digits (S (N.to_nat (N.log2 n))) n [].

Definition print_int (z : Z) : jsstring :=
  (if (z <? 0)%Z then [45%N] else []) ++ print_nat (Z.abs_N z).

Fixpoint print_value (v : JSValue) : jsstring :=
  match v with
  | JNull => u "null"
  | JBool true => u "true"
  | JBool false => u "false"
  | JNum m e =>
      print_int m ++ (if (e =? 0)%Z then [] else [101%N] ++ print_int e)
  | JStr s => print_string s
  | JArr items =>
      [91%N] ++ join [44%N] (map print_value items) ++ [93%N]
  | JObj members =>
      [123%N] ++
      join [44%N]
        (map (fun kv => print_string (fst kv) ++ [58%N] ++ print_value (snd kv))
           members) ++
      [125%N]
  end.

Definition stringify (items : list JSValue) : result jsstring :=
  Ok (print_value (JArr items)).

End Json.

(* ================================================================== *)
(** * Part II: properties *)
(* ================================================================== *)

Unset Implicit Arguments.

(** ** Strings *)

Lemma str_eqb_eq (a b : jsstring) : str_eqb a b = true <-> a = b.
Proof.
  revert b; induction a as [|x a IH]; intros [|y b]; simpl; split;
    try congruence; try reflexivity.
  - intros H. apply andb_true_iff in H as [H1 H2].
    apply N.eqb_eq in H1. apply IH in H2. congruence.
  - intros H. injection H as -> ->.
    rewrite N.eqb_refl. simpl. now apply IH.
Qed.

Lemma str_eqb_refl (a : jsstring) : str_eqb a a = true.
Proof. now apply str_eqb_eq. Qed.

Lemma str_eqb_neq (a b : jsstring) : str_eqb a b = false <-> a <> b.
Proof.
  split.
  - intros H E. apply str_eqb_eq in E. congruence.
  - intros H. destruct (str_eqb a b) eqn:E; [|reflexivity].
    apply str_eqb_eq in E. contradiction.
Qed.

Lemma strip_prefix_app (p s r : jsstring) :
  strip_prefix p s = Some r <-> s = p ++ r.
Proof.
  revert s; induction p as [|a p IH]; intros s; simpl.
  - split; congruence.
  - destruct s as [|b s].
    + split; discriminate.
    + destruct (N.eqb_spec a b) as [->|Hne].
      * rewrite IH. split; congruence.
      * split; [discriminate|]. intros H. injection H as H _. congruence.
Qed.

Lemma startsWith_app (p s : jsstring) :
  startsWith p s = true <-> exists r, s = p ++ r.
Proof.
  unfold startsWith. destruct (strip_prefix p s) as [r|] eqn:E.
  - apply strip_prefix_app in E. split; eauto.
  - split; [discriminate|]. intros [r Hr].
    apply strip_prefix_app in Hr. congruence.
Qed.

(** [includes q s] holds exactly when [q] occurs in [s]. *)
Lemma includes_substring (q s : jsstring) :
  includes q s = true <-> exists a b, s = a ++ q ++ b.
Proof.
  induction s as [|c s IH].
  - simpl. rewrite orb_false_r, startsWith_app. split.
    + intros [r Hr]. exists [], r. exact Hr.
    + intros (a & b & H). destruct a; [|discriminate]. exists b. exact H.
  - simpl. rewrite orb_true_iff, startsWith_app, IH. split.
    + intros [[r Hr]|(a & b & H)].
      * exists [], r. exact Hr.
      * exists (c :: a), b. simpl. now rewrite H.
    + intros (a & b & H). destruct a as [|x a].
      * left. exists b. exact H.
      * right. injection H as _ H. eauto.
Qed.

Lemma includes_nil (s : jsstring) : includes [] s = true.
Proof. apply includes_substring. exists [], s. reflexivity. Qed.

(** ** Sorting *)

Section SortFacts.
Variable A : Type.
Variable cmp : A -> A -> Z.

Let le (a b : A) : Prop := (cmp a b <= 0)%Z.

Lemma insert_by_perm (x : A) (l : list A) :
  Permutation (x :: l) (insert_by cmp x l).
Proof.
  induction l as [|y l IH]; simpl.
  - apply Permutation_refl.
  - destruct (cmp x y <=? 0)%Z.
    + apply Permutation_refl.
    + eapply perm_trans; [apply perm_swap|]. now apply perm_skip.
Qed.

Lemma sort_by_perm (l : list A) : Permutation l (sort_by cmp l).
Proof.
  induction l as [|x l IH]; simpl.
  - apply perm_nil.
  - eapply perm_trans; [apply perm_skip, IH|]. apply insert_by_perm.
Qed.

Lemma insert_by_front (x : A) (l : list A) :
  Forall (le x) l -> insert_by cmp x l = x :: l.
Proof.
  intros H. destruct l as [|y l]; [reflexivity|]. simpl.
  inversion H as [|? ? Hy _]; subst. unfold le in Hy.
  apply Z.leb_le in Hy. now rewrite Hy.
Qed.

(** A list whose elements all tie is left as it is. *)
Lemma sort_by_ties (l : list A) :
  (forall a b, In a l -> In b l -> le a b) -> sort_by cmp l = l.
Proof.
  induction l as [|x l IH]; intros H; simpl; [reflexivity|].
  rewrite IH by (intros; apply H; now right).
  apply insert_by_front. apply Forall_forall. intros y Hy.
  apply H; [now left|now right].
Qed.

Hypothesis cmp_trans : forall a b c, le a b -> le b c -> le a c.
Hypothesis cmp_total : forall a b, le a b \/ le b a.

Lemma insert_by_sorted (x : A) (l : list A) :
  StronglySorted le l -> StronglySorted le (insert_by cmp x l).
Proof.
  induction l as [|y l IH]; intros Hs; simpl.
  - constructor; [constructor|constructor].
  - inversion Hs as [|? ? Hs' Hall]; subst.
    destruct (cmp x y <=? 0)%Z eqn:E.
    + apply Z.leb_le in E. constructor; [exact Hs|].
      constructor; [exact E|].
      eapply Forall_impl; [|exact Hall]. intros z Hz. eapply cmp_trans; eauto.
    + apply Z.leb_gt in E. constructor; [now apply IH|].
      assert (Hyx : le y x).
      { destruct (cmp_total y x) as [H|H]; [exact H|]. unfold le in H. lia. }
      apply Forall_forall. intros z Hz.
      apply (Permutation_in _ (Permutation_sym (insert_by_perm x l))) in Hz.
      destruct Hz as [<-|Hz]; [exact Hyx|].
      rewrite Forall_forall in Hall. now apply Hall.
Qed.

Lemma sort_by_sorted (l : list A) : StronglySorted le (sort_by cmp l).
Proof.
  induction l as [|x l IH]; simpl; [constructor|]. now apply insert_by_sorted.
Qed.

Lemma filter_insert_by (f : A -> bool) (x : A) (l : list A) :
  StronglySorted le l ->
  filter f (insert_by cmp x l) =
  if f x then insert_by cmp x (filter f l) else filter f l.
Proof.
  induction l as [|y l IH]; intros Hs.
  - simpl. destruct (f x); reflexivity.
  - inversion Hs as [|? ? Hs' Hall]; subst. simpl insert_by.
    destruct (cmp x y <=? 0)%Z eqn:E.
    + apply Z.leb_le in E.
      change (filter f (x :: y :: l)) with
        (if f x then x :: filter f (y :: l) else filter f (y :: l)).
      destruct (f x); [|reflexivity].
      symmetry. apply insert_by_front.
      apply Forall_forall. intros z Hz. apply filter_In in Hz as [Hz _].
      destruct Hz as [<-|Hz]; [exact E|].
      rewrite Forall_forall in Hall. eapply cmp_trans; [exact E|]. now apply Hall.
    + change (filter f (y :: insert_by cmp x l)) with
        (if f y then y :: filter f (insert_by cmp x l)
         else filter f (insert_by cmp x l)).
      rewrite (IH Hs'). simpl filter.
      destruct (f y), (f x); simpl; try reflexivity.
      now rewrite E.
Qed.

(** Filtering commutes with the stable sort. *)
Lemma filter_sort_by (f : A -> bool) (l : list A) :
  filter f (sort_by cmp l) = sort_by cmp (filter f l).
Proof.
  induction l as [|x l IH]; simpl; [reflexivity|].
  rewrite filter_insert_by by apply sort_by_sorted.
  rewrite IH. destruct (f x); reflexivity.
Qed.

(** The head of the sorted list is the first element of the input that
    no other element has to precede. *)
Lemma sort_by_head (l : list A) (m : A) (r : list A) :
  sort_by cmp l = m :: r ->
  exists l1 l2, l = l1 ++ m :: l2 /\
    (forall k, In k l1 -> ~ le k m) /\
    (forall k, In k l2 -> le m k).
Proof.
  revert m r; induction l as [|x l IH]; intros m r H; simpl in H.
  - discriminate.
  - destruct (sort_by cmp l) as [|m' r'] eqn:E.
    + assert (l = []) as ->.
      { apply Permutation_nil. rewrite <- E. apply Permutation_sym, sort_by_perm. }
      simpl in H. injection H as <- <-.
      exists [], []. repeat split; intros k [].
    + destruct (IH m' r' eq_refl) as (l1 & l2 & -> & H1 & H2).
      simpl in H. destruct (cmp x m' <=? 0)%Z eqn:Ex.
      * injection H as <- <-. apply Z.leb_le in Ex.
        exists [], (l1 ++ m' :: l2). repeat split; [intros k []|].
        intros k Hk. apply in_app_or in Hk as [Hk|[<-|Hk]].
        -- destruct (cmp_total x k) as [Hc|Hc]; [exact Hc|].
           exfalso. apply (H1 k Hk). eapply cmp_trans; eauto.
        -- exact Ex.
        -- eapply cmp_trans; [exact Ex|]. now apply H2.
      * injection H as <- <-. apply Z.leb_gt in Ex.
        exists (x :: l1), l2. repeat split; [|exact H2].
        intros k [<-|Hk]; [unfold le; lia|now apply H1].
Qed.

End SortFacts.

(** ** The note store *)

Module StoreFacts.
Import Store.

Local Open Scope Z_scope.

Lemma sortByUpdated_le (a b : Note) :
  sortByUpdated a b <= 0 <-> updatedAt b <= updatedAt a.
Proof. unfold sortByUpdated. lia. Qed.

Lemma sortByUpdated_trans (a b c : Note) :
  sortByUpdated a b <= 0 -> sortByUpdated b c <= 0 -> sortByUpdated a c <= 0.
Proof. unfold sortByUpdated. lia. Qed.

Lemma sortByUpdated_total (a b : Note) :
  sortByUpdated a b <= 0 \/ sortByUpdated b a <= 0.
Proof. unfold sortByUpdated. lia. Qed.

Ltac by_order := solve [exact sortByUpdated_trans | exact sortByUpdated_total].

(** *** [updateNote] *)

Lemma updateNote_nth (next : Note) (now : Z) (prev : list Note) (i : nat) (n : Note) :
  nth_error prev i = Some n ->
  nth_error (updateNote next now prev) i =
  Some (if str_eqb (id n) (id next) then stamp next now else n).
Proof.
  intros H. unfold updateNote. rewrite nth_error_map, H. reflexivity.
Qed.

Lemma updateNote_ids (next : Note) (now : Z) (prev : list Note) :
  map id (updateNote next now prev) = map id prev.
Proof.
  unfold updateNote. rewrite map_map. apply map_ext. intros n.
  destruct (str_eqb (id n) (id next)) eqn:E; [|reflexivity].
  apply str_eqb_eq in E. simpl. congruence.
Qed.

(** An update for an id that no note has changes nothing. *)
Lemma updateNote_unknown_id (next : Note) (now : Z) (prev : list Note) :
  ~ In (id next) (map id prev) -> updateNote next now prev = prev.
Proof.
  intros H. unfold updateNote. rewrite <- (map_id prev) at 2.
  apply map_ext_in. intros n Hn.
  destruct (str_eqb (id n) (id next)) eqn:E; [|reflexivity].
  apply str_eqb_eq in E. exfalso. apply H. rewrite <- E. now apply in_map.
Qed.

(** *** Filtering and sorting *)

Lemma filteredNotes_filter (lower : jsstring -> jsstring) (ns : list Note)
    (s : jsstring) :
  filteredNotes lower ns s = filter (matches lower (lower (trim s))) ns.
Proof.
  unfold filteredNotes. destruct (lower (trim s)) as [|c q] eqn:E; simpl.
  - symmetry. apply forallb_filter_id. apply forallb_forall. intros n _.
    unfold matches. now rewrite includes_nil.
  - reflexivity.
Qed.

Lemma filter_filter_comm (A : Type) (f g : A -> bool) (l : list A) :
  filter f (filter g l) = filter g (filter f l).
Proof.
  induction l as [|x l IH]; simpl; [reflexivity|].
  destruct (f x) eqn:Ef, (g x) eqn:Eg; simpl; rewrite ?Ef, ?Eg, IH; reflexivity.
Qed.

Lemma Sidebar_sorted_filter (f : Note -> bool) (ns : list Note) :
  filter f (Sidebar_sorted ns) = Sidebar_sorted (filter f ns).
Proof.
  unfold Sidebar_sorted. rewrite filter_app.
  rewrite !filter_sort_by by by_order.
  now rewrite !(filter_filter_comm _ f).
Qed.

Lemma Sidebar_sorted_perm (ns : list Note) : Permutation ns (Sidebar_sorted ns).
Proof.
  unfold Sidebar_sorted.
  eapply perm_trans; [|apply Permutation_app; apply sort_by_perm].
  induction ns as [|n ns IH]; simpl; [apply perm_nil|].
  destruct (pinned n); simpl.
  - now apply perm_skip.
  - eapply perm_trans; [apply perm_skip, IH|]. apply Permutation_middle.
Qed.

Lemma Forall_sort_by (A : Type) (cmp : A -> A -> Z) (P : A -> Prop) (l : list A) :
  Forall P l -> Forall P (sort_by cmp l).
Proof.
  intros H. apply Forall_forall. intros x Hx.
  rewrite Forall_forall in H. apply H.
  eapply Permutation_in; [apply Permutation_sym, sort_by_perm|exact Hx].
Qed.

Lemma Permutation_3_inv (A : Type) (a b c : A) (l : list A) :
  Permutation l [a; b; c] ->
  l = [a; b; c] \/ l = [a; c; b] \/ l = [b; a; c] \/
  l = [b; c; a] \/ l = [c; a; b] \/ l = [c; b; a].
Proof.
  intros H.
  destruct (Permutation_vs_cons_inv H) as (l1 & l2 & ->).
  apply Permutation_sym, Permutation_cons_app_inv in H.
  apply Permutation_length_2_inv in H.
  destruct l1 as [|x [|y [|z l1]]]; simpl in H;
    destruct H as [H|H]; try discriminate;
    inversion H; subst; simpl; auto 7.
Qed.

(** *** Deleting the active note *)

Lemma find_split (A : Type) (f : A -> bool) (l : list A) (a : A) :
  find f l = Some a ->
  exists l1 l2, l = l1 ++ a :: l2 /\ f a = true /\
                Forall (fun x => f x = false) l1.
Proof.
  induction l as [|x l IH]; simpl; [discriminate|].
  destruct (f x) eqn:E.
  - intros H. injection H as ->. exists [], l. auto.
  - intros H. destruct (IH H) as (l1 & l2 & -> & Ha & Hl1).
    exists (x :: l1), l2. auto.
Qed.

Lemma filter_all (A : Type) (f : A -> bool) (l : list A) :
  Forall (fun x => f x = true) l -> filter f l = l.
Proof.
  induction 1 as [|x l Hx _ IH]; simpl; [reflexivity|]. now rewrite Hx, IH.
Qed.

Lemma filter_none (A : Type) (f : A -> bool) (l : list A) :
  Forall (fun x => f x = false) l -> filter f l = [].
Proof.
  induction 1 as [|x l Hx _ IH]; simpl; [reflexivity|]. now rewrite Hx.
Qed.

Lemma activeNote_Some (st : State) (a : Note) :
  activeNote st = Some a ->
  activeId st = Some (id a) /\
  exists l1 l2, notes st = l1 ++ a :: l2 /\
                Forall (fun x => id x <> id a) l1.
Proof.
  unfold activeNote. destruct (activeId st) as [i|]; [|discriminate].
  intros H. apply find_split in H as (l1 & l2 & E & Ha & Hl1).
  apply str_eqb_eq in Ha. subst i. split; [reflexivity|].
  exists l1, l2. split; [exact E|].
  eapply Forall_impl; [|exact Hl1]. intros x Hx. now apply str_eqb_neq.
Qed.

(** Removing the active note, when ids are unique, removes that note and
    nothing else. *)
Lemma remove_active (a : Note) (l1 l2 : list Note) :
  NoDup (map id (l1 ++ a :: l2)) ->
  filter (fun n => negb (str_eqb (id n) (id a))) (l1 ++ a :: l2) = l1 ++ l2.
Proof.
  intros Hnd. rewrite map_app in Hnd. simpl in Hnd.
  pose proof (NoDup_remove_2 _ _ _ Hnd) as Hnot.
  rewrite filter_app. simpl. rewrite str_eqb_refl. simpl.
  rewrite !filter_all; [reflexivity| |].
  - apply Forall_forall. intros x Hx. apply negb_true_iff, str_eqb_neq.
    intros E. apply Hnot. apply in_or_app. right. rewrite <- E. now apply in_map.
  - apply Forall_forall. intros x Hx. apply negb_true_iff, str_eqb_neq.
    intros E. apply Hnot. apply in_or_app. left. rewrite <- E. now apply in_map.
Qed.

Lemma Sidebar_sorted_ties (p : bool) (t : Z) (ns : list Note) :
  Forall (fun n => pinned n = p /\ updatedAt n = t) ns ->
  Sidebar_sorted ns = ns.
Proof.
  intros H. unfold Sidebar_sorted.
  assert (Hties : forall l, incl l ns -> sort_by sortByUpdated l = l).
  { intros l Hl. apply sort_by_ties. intros a b Ha Hb.
    rewrite Forall_forall in H.
    destruct (H a (Hl a Ha)) as [_ Ea], (H b (Hl b Hb)) as [_ Eb].
    unfold sortByUpdated. lia. }
  rewrite !Hties by (intros x Hx; apply filter_In in Hx; destruct Hx; assumption).
  destruct p.
  - rewrite filter_all, filter_none; [apply app_nil_r| |].
    + eapply Forall_impl; [|exact H]. simpl. intros n [-> _]. reflexivity.
    + eapply Forall_impl; [|exact H]. simpl. tauto.
  - rewrite filter_none, filter_all; [reflexivity| |].
    + eapply Forall_impl; [|exact H]. simpl. intros n [-> _]. reflexivity.
    + eapply Forall_impl; [|exact H]. simpl. tauto.
Qed.

Lemma newest_first_sort_by (l : list Note) : newest_first (sort_by sortByUpdated l).
Proof.
  unfold newest_first.
  pose proof (@sort_by_sorted _ _ sortByUpdated_trans sortByUpdated_total l) as H.
  induction H as [|a l0 _ IH Hall]; constructor; [exact IH|].
  eapply Forall_impl; [|exact Hall]. intros b. apply sortByUpdated_le.
Qed.

(** *** Updating a note *)

(** C2 (as amended). [updateNote] never changes the id of any note,
    whatever note it is given and so whatever the payload names,
    [createdAt] included. For a note [n] of the collection and any
    payload [p], after [updateNote] is called with the merge
    [{...n, ...p}] the note in the place of [n] has the id of [n]; it
    has the [createdAt] of [n] when [p] does not name [createdAt]; and
    its [updatedAt] is not less than that of [n] when the clock reading
    is not earlier than it. *)
Theorem updateNote_keeps_id_and_createdAt :
  (forall (next : Note) (now : Z) (prev : list Note),
     map id (updateNote next now prev) = map id prev) /\
  (forall (prev : list Note) (i : nat) (n : Note) (p : Patch) (now : Z),
     nth_error prev i = Some n ->
     exists n',
       nth_error (updateNote (spread n p) now prev) i = Some n' /\
       id n' = id n /\
       (p_createdAt p = None -> createdAt n' = createdAt n) /\
       (updatedAt n <= now -> updatedAt n <= updatedAt n')).
Proof.
  split; [exact updateNote_ids|].
  intros prev i n p now Hn.
  rewrite (updateNote_nth _ _ _ _ _ Hn).
  destruct (str_eqb (id n) (id (spread n p))) eqn:E.
  - apply str_eqb_eq in E. exists (stamp (spread n p) now).
    split; [reflexivity|]. split; [symmetry; exact E|]. split.
    + intros Hp. simpl. now rewrite Hp.
    + intros Hclock. exact Hclock.
  - exists n. repeat split. intros _. lia.
Qed.

Lemma updateNote_keeps_id_and_createdAt_witness :
  nth_error [noteA] 0 = Some noteA /\
  p_createdAt patch_title_pinned = None /\
  updatedAt noteA <= 5 /\
  map id (updateNote (spread noteA patch_createdAt) 5 [noteA]) = map id [noteA] /\
  exists n',
    nth_error (updateNote (spread noteA patch_title_pinned) 5 [noteA]) 0 = Some n' /\
    title n' = u "X" /\
    id n' = id noteA /\
    createdAt n' = createdAt noteA /\
    updatedAt noteA <= updatedAt n'.
Proof.
  assert (Hc : updatedAt noteA <= 5) by (simpl; lia).
  split; [reflexivity|]. split; [reflexivity|]. split; [exact Hc|].
  split; [exact (proj1 updateNote_keeps_id_and_createdAt
                   (spread noteA patch_createdAt) 5 [noteA])|].
  destruct (proj2 updateNote_keeps_id_and_createdAt
              [noteA] 0%nat noteA patch_title_pinned 5 eq_refl)
    as (n' & Hn' & Hid & Hcr & Hup).
  exists n'. split; [exact Hn'|]. split.
  - vm_compute in Hn'. injection Hn' as <-. reflexivity.
  - split; [exact Hid|]. split; [exact (Hcr eq_refl)|exact (Hup Hc)].
Defined.

(** A payload that names [createdAt] overwrites it: the note created at 1
    is created at 99 after the update. *)
Lemma updateNote_createdAt_overwritten :
  createdAt noteA = 1 /\
  updatedAt noteA <= 5 /\
  updateNote (spread noteA patch_createdAt) 5 [noteA] =
  [mkNote (u "a") (u "T") (u "C") 99 5 false None].
Proof. split; [reflexivity|]. split; [simpl; lia|reflexivity]. Qed.

(** C3 (as amended). For a note [n] of the collection and a payload [p]
    that names no id other than that of [n], [updateNote] called with the
    merge [{...n, ...p}] puts a merged copy in the place of [n]: a field
    named in [p] has the value of the payload, a field not named has its
    prior value, and [updatedAt] is the clock reading; the notes with
    another id are left as they are. *)
Theorem updateNote_merged_copy :
  forall (prev : list Note) (i : nat) (n : Note) (p : Patch) (now : Z),
    nth_error prev i = Some n ->
    p_id p = None \/ p_id p = Some (id n) ->
    (exists n',
       nth_error (updateNote (spread n p) now prev) i = Some n' /\
       id n' = id n /\
       title n' = or_else (p_title p) (title n) /\
       content n' = or_else (p_content p) (content n) /\
       createdAt n' = or_else (p_createdAt p) (createdAt n) /\
       pinned n' = or_else (p_pinned p) (pinned n) /\
       color n' = or_else (p_color p) (color n) /\
       updatedAt n' = now) /\
    (forall j m,
       nth_error prev j = Some m -> id m <> id n ->
       nth_error (updateNote (spread n p) now prev) j = Some m).
Proof.
  intros prev i n p now Hn Hp.
  assert (Hid : id (spread n p) = id n).
  { simpl. destruct Hp as [->| ->]; reflexivity. }
  split.
  - rewrite (updateNote_nth _ _ _ _ _ Hn), Hid, str_eqb_refl.
    exists (stamp (spread n p) now). split; [reflexivity|].
    split; [exact Hid|]. simpl. repeat split; reflexivity.
  - intros j m Hm Hne. rewrite (updateNote_nth _ _ _ _ _ Hm), Hid.
    apply str_eqb_neq in Hne. now rewrite Hne.
Qed.

Lemma updateNote_merged_copy_witness :
  nth_error [noteA] 0 = Some noteA /\
  (p_id patch_title_pinned = None \/ p_id patch_title_pinned = Some (id noteA)) /\
  nth_error (updateNote (spread noteA patch_title_pinned) 5 [noteA]) 0 =
  Some (mkNote (u "a") (u "X") (u "C") 1 5 true None).
Proof.
  split; [reflexivity|]. split; [left; reflexivity|].
  destruct (updateNote_merged_copy [noteA] 0 noteA patch_title_pinned 5
              eq_refl (or_introl eq_refl)) as [(n' & Hn' & _) _].
  rewrite Hn'. vm_compute in Hn'. injection Hn' as <-. reflexivity.
Defined.

(** A payload that names another id is not applied at all: the title of
    the note stays "T" although the payload names the title "X". *)
Lemma updateNote_renamed_id_not_applied :
  p_title patch_id_title = Some (u "X") /\
  title noteA = u "T" /\
  updateNote (spread noteA patch_id_title) 5 [noteA] = [noteA].
Proof. repeat split. Qed.

(** *** The list of the sidebar *)

(** C4. The list shown has the pinned notes before the others, each part
    with the most recent [updatedAt] first, and notes of the same part
    with the same [updatedAt] in the order of the collection; pinned
    [a], [b] and unpinned [c] with [updatedAt a < updatedAt b <
    updatedAt c] are shown as [b; a; c] in whatever order they are stored. *)
Theorem visibleNotes_pinned_first_newest_first :
  forall (toLowerCase : jsstring -> jsstring) (ns : list Note) (search : jsstring),
    let shown := filteredNotes toLowerCase ns search in
    let v := visibleNotes toLowerCase ns search in
    (exists ps us,
       v = ps ++ us /\
       Forall (fun n => pinned n = true) ps /\
       Forall (fun n => pinned n = false) us /\
       newest_first ps /\ newest_first us) /\
    Permutation shown v /\
    (forall p t, filter (same_rank p t) v = filter (same_rank p t) shown) /\
    (toLowerCase (trim search) = [] -> shown = ns) /\
    (forall a b c,
       pinned a = true -> pinned b = true -> pinned c = false ->
       updatedAt a < updatedAt b -> updatedAt b < updatedAt c ->
       Permutation ns [a; b; c] ->
       toLowerCase (trim search) = [] ->
       v = [b; a; c]).
Proof.
  intros lower ns search shown v.
  assert (Hshown : lower (trim search) = [] -> shown = ns).
  { intros E. unfold shown, filteredNotes. now rewrite E. }
  split; [|split; [|split; [|split]]].
  - exists (sort_by sortByUpdated (filter (fun n => pinned n) shown)),
           (sort_by sortByUpdated (filter (fun n => negb (pinned n)) shown)).
    split; [reflexivity|].
    split; [|split; [|split; apply newest_first_sort_by]].
    + apply Forall_sort_by, Forall_forall. intros n Hn.
      now apply filter_In in Hn.
    + apply Forall_sort_by, Forall_forall. intros n Hn.
      apply filter_In in Hn. now apply negb_true_iff.
  - apply Sidebar_sorted_perm.
  - intros p t. unfold v, visibleNotes. rewrite Sidebar_sorted_filter.
    apply Sidebar_sorted_ties with (p := p) (t := t).
    apply Forall_forall. intros n Hn. apply filter_In in Hn as [_ Hn].
    unfold same_rank in Hn. apply andb_true_iff in Hn as [H1 H2].
    apply eqb_prop in H1. apply Z.eqb_eq in H2. auto.
  - exact Hshown.
  - intros a b c Ha Hb Hc Hab Hbc Hperm E.
    unfold v, visibleNotes. fold shown. rewrite (Hshown E).
    assert (Hac : updatedAt a < updatedAt c) by lia.
    unfold Sidebar_sorted.
    destruct (Permutation_3_inv _ _ _ _ _ Hperm) as [->|[->|[->|[->|[->| ->]]]]];
      simpl; rewrite ?Ha, ?Hb, ?Hc; simpl; rewrite ?Ha, ?Hb, ?Hc; simpl;
      unfold sortByUpdated;
      repeat match goal with
             | |- context [(?x <=? 0)] =>
                 destruct (Z.leb_spec x 0); try lia; simpl
             end; reflexivity.
Qed.

Lemma visibleNotes_pinned_first_newest_first_witness :
  lower_ascii (trim []) = [] /\
  Permutation [noteU3; noteP1; noteP2] [noteP1; noteP2; noteU3] /\
  visibleNotes lower_ascii [noteU3; noteP1; noteP2] [] = [noteP2; noteP1; noteU3].
Proof.
  assert (Hperm : Permutation [noteU3; noteP1; noteP2] [noteP1; noteP2; noteU3]).
  { change [noteP1; noteP2; noteU3] with ([noteP1; noteP2] ++ [noteU3]).
    apply Permutation_cons_app. rewrite app_nil_r. apply Permutation_refl. }
  split; [reflexivity|]. split; [exact Hperm|].
  destruct (visibleNotes_pinned_first_newest_first lower_ascii
              [noteU3; noteP1; noteP2] []) as (_ & _ & _ & _ & H).
  apply (H noteP1 noteP2 noteU3);
    [reflexivity|reflexivity|reflexivity|simpl; lia|simpl; lia|exact Hperm|reflexivity].
Defined.

(** C5. The list shown under a search is the unfiltered list of the
    sidebar with exactly the notes kept whose lower-cased title or
    lower-cased content contains the trimmed, lower-cased query, in the
    order they have there. *)
Theorem visibleNotes_search_filter :
  forall (toLowerCase : jsstring -> jsstring) (ns : list Note) (search : jsstring),
    let q := toLowerCase (trim search) in
    visibleNotes toLowerCase ns search =
      filter (matches toLowerCase q) (Sidebar_sorted ns) /\
    (forall n,
       In n (visibleNotes toLowerCase ns search) <->
       In n ns /\
       ((exists a b, toLowerCase (title n) = a ++ q ++ b) \/
        (exists a b, toLowerCase (content n) = a ++ q ++ b))).
Proof.
  intros lower ns search q.
  assert (E : visibleNotes lower ns search =
              filter (matches lower q) (Sidebar_sorted ns)).
  { unfold visibleNotes. rewrite filteredNotes_filter.
    symmetry. apply Sidebar_sorted_filter. }
  split; [exact E|].
  intros n. rewrite E, filter_In. unfold matches.
  rewrite orb_true_iff, !includes_substring.
  split; intros [H1 H2]; (split; [|exact H2]).
  - eapply Permutation_in; [apply Permutation_sym, Sidebar_sorted_perm|exact H1].
  - eapply Permutation_in; [apply Sidebar_sorted_perm|exact H1].
Qed.

(** The three notes above, of which only the first contains "foo". *)
Example visibleNotes_search_foo :
  visibleNotes lower_ascii [noteU3; noteP2; noteP1] (u " Foo ") = [noteP1].
Proof. reflexivity. Qed.

(** *** The active note *)

(** The ids that [uid] makes are not empty. *)
Lemma uid_not_empty (clock36 random36 : jsstring) : uid clock36 random36 <> [].
Proof. unfold uid. destruct clock36; discriminate. Qed.

(** C6 (as amended). Deleting with no active note changes nothing.
    Deleting the active note [a] of a collection with unique ids removes
    [a] and no other note; the active id is then none when no note is
    left; otherwise, [m] being the first note of the collection, in its
    order, that has the greatest [updatedAt] of those left, the active id
    is the id of [m] when that id is not empty, and none when it is the
    empty string. *)
Theorem handleDeleteNote_reassigns_active :
  forall (st : State),
    (activeNote st = None -> forall ok, handleDeleteNote ok st = st) /\
    (forall a,
       activeNote st = Some a ->
       NoDup (map id (notes st)) ->
       let st' := handleDeleteNote true st in
       (exists l1 l2, notes st = l1 ++ a :: l2 /\ notes st' = l1 ++ l2) /\
       (notes st' = [] -> activeId st' = None) /\
       (notes st' <> [] ->
        exists r1 m r2,
          notes st' = r1 ++ m :: r2 /\
          (forall k, In k r1 -> updatedAt k < updatedAt m) /\
          (forall k, In k r2 -> updatedAt k <= updatedAt m) /\
          (id m <> [] -> activeId st' = Some (id m)) /\
          (id m = [] -> activeId st' = None))).
Proof.
  intros st. split.
  - intros H ok. unfold handleDeleteNote. now rewrite H.
  - intros a Ha Hnd st'.
    destruct (activeNote_Some _ _ Ha) as (_ & l1 & l2 & E & _).
    assert (Hnotes : notes st' = l1 ++ l2).
    { unfold st', handleDeleteNote. rewrite Ha. simpl.
      rewrite E in Hnd |- *. now apply remove_active. }
    assert (Hact : activeId st' =
                   or_null (option_map id
                              (hd_error (sort_by sortByUpdated (notes st'))))).
    { unfold st', handleDeleteNote. rewrite Ha. reflexivity. }
    split; [exists l1, l2; auto|]. split.
    + intros Hnil. rewrite Hact, Hnil. reflexivity.
    + intros Hne.
      destruct (sort_by sortByUpdated (notes st')) as [|m r] eqn:Es.
      * exfalso. apply Hne. apply Permutation_nil. rewrite <- Es.
        apply Permutation_sym, sort_by_perm.
      * destruct (sort_by_head _ _ sortByUpdated_trans sortByUpdated_total _ _ _ Es)
          as (r1 & r2 & Er & H1 & H2).
        exists r1, m, r2. split; [exact Er|]. split; [|split; [|split]].
        -- intros k Hk. specialize (H1 k Hk). rewrite sortByUpdated_le in H1. lia.
        -- intros k Hk. specialize (H2 k Hk). now rewrite sortByUpdated_le in H2.
        -- intros Hm. rewrite Hact. simpl.
           destruct (id m); [contradiction|reflexivity].
        -- intros Hm. rewrite Hact. simpl. now rewrite Hm.
Qed.

Lemma handleDeleteNote_reassigns_active_witness :
  activeNote stXYZ = Some noteX /\
  NoDup (map id (notes stXYZ)) /\
  id noteY <> [] /\
  notes (handleDeleteNote true stXYZ) = [noteY; noteZ] /\
  activeId (handleDeleteNote true stXYZ) = Some (id noteY).
Proof.
  assert (Hnd : NoDup (map id (notes stXYZ))).
  { repeat constructor; simpl; intuition discriminate. }
  assert (Hy : id noteY <> []) by discriminate.
  split; [reflexivity|]. split; [exact Hnd|]. split; [exact Hy|].
  split; [reflexivity|].
  destruct (proj2 (handleDeleteNote_reassigns_active stXYZ) noteX eq_refl Hnd)
    as (_ & _ & H).
  destruct (H ltac:(discriminate)) as (r1 & m & r2 & E & H1 & _ & Hsome & _).
  change (notes (handleDeleteNote true stXYZ)) with [noteY; noteZ] in E.
  destruct r1 as [|k1 r1].
  - simpl in E. injection E as <- _. exact (Hsome Hy).
  - exfalso. simpl in E. injection E as <- E.
    destruct r1 as [|k2 r1].
    + simpl in E. injection E as <- _.
      specialize (H1 noteY (or_introl eq_refl)). simpl in H1. lia.
    + simpl in E. injection E as _ E. destruct r1; discriminate E.
Defined.

(** With a note left whose id is the empty string the pointer is none
    although a note is left: of [x], active, and a note with the id "",
    deleting [x] leaves that note and no active id. *)
Lemma handleDeleteNote_empty_id_no_active :
  activeNote stXE = Some noteX /\
  NoDup (map id (notes stXE)) /\
  notes (handleDeleteNote true stXE) = [noteE] /\
  activeId (handleDeleteNote true stXE) = None.
Proof.
  split; [reflexivity|]. split; [|split; reflexivity].
  repeat constructor; simpl; intuition discriminate.
Qed.

(** The example of the design document: of [x] (updated at 5) and [y]
    (updated at 9) with [x] active, deleting leaves [y] active; and of two
    notes updated at 9 the first one of the collection becomes active. *)
Example handleDeleteNote_examples :
  handleDeleteNote true (mkState [noteX; noteY] (Some (u "x")) []) =
    mkState [noteY] (Some (u "y")) [] /\
  handleDeleteNote true stXYZ = mkState [noteY; noteZ] (Some (u "y")) [] /\
  handleDeleteNote true (mkState [noteY] (Some (u "y")) []) = mkState [] None [].
Proof. repeat split. Qed.

(** C7 (as amended). [handleSelectNote] sets the active id to the id it
    is given, whether or not a note has it, and leaves the collection as
    it is; when a note has the id it becomes the active note, and when
    none has it there is no active note. The ids that the sidebar passes
    are ids of notes of the collection. *)
Theorem handleSelectNote_sets_pointer :
  forall (st : State) (i : jsstring),
    notes (handleSelectNote i st) = notes st /\
    activeId (handleSelectNote i st) = Some i /\
    (In i (map id (notes st)) ->
     exists n, activeNote (handleSelectNote i st) = Some n /\ id n = i) /\
    (~ In i (map id (notes st)) -> activeNote (handleSelectNote i st) = None) /\
    (forall toLowerCase n,
       In n (visibleNotes toLowerCase (notes st) (search st)) ->
       In (id n) (map id (notes st))).
Proof.
  intros st i. split; [reflexivity|]. split; [reflexivity|].
  unfold activeNote. simpl. split; [|split].
  - intros Hin. apply in_map_iff in Hin as (n & Hn & Hin).
    destruct (find (fun n0 => str_eqb (id n0) i) (notes st)) as [m|] eqn:E.
    + exists m. split; [reflexivity|].
      apply find_some in E as [_ E]. now apply str_eqb_eq.
    + exfalso. apply (find_none _ _ E) in Hin. simpl in Hin.
      rewrite Hn, str_eqb_refl in Hin. discriminate.
  - intros Hnot.
    destruct (find (fun n0 => str_eqb (id n0) i) (notes st)) as [m|] eqn:E;
      [|reflexivity].
    exfalso. apply find_some in E as [Hin E]. apply str_eqb_eq in E.
    apply Hnot. rewrite <- E. now apply in_map.
  - intros lower n Hn. apply in_map.
    unfold visibleNotes in Hn.
    apply (Permutation_in _ (Permutation_sym (Sidebar_sorted_perm _))) in Hn.
    rewrite filteredNotes_filter in Hn. now apply filter_In in Hn.
Qed.

Lemma handleSelectNote_sets_pointer_witness :
  ~ In (u "zzz") (map id (notes stA)) /\
  In (u "a") (map id (notes stA)) /\
  activeNote (handleSelectNote (u "zzz") stA) = None /\
  exists n, activeNote (handleSelectNote (u "a") stA) = Some n /\ id n = u "a".
Proof.
  assert (H1 : ~ In (u "zzz") (map id (notes stA))).
  { simpl. intuition discriminate. }
  assert (H2 : In (u "a") (map id (notes stA))) by (left; reflexivity).
  split; [exact H1|]. split; [exact H2|]. split.
  - exact (proj1 (proj2 (proj2 (proj2
             (handleSelectNote_sets_pointer stA (u "zzz"))))) H1).
  - exact (proj1 (proj2 (proj2
             (handleSelectNote_sets_pointer stA (u "a")))) H2).
Defined.

(** Selecting an id that no note has does move the pointer: it was on
    "a" and is on "zzz" afterwards. *)
Lemma handleSelectNote_unknown_id_moves_pointer :
  ~ In (u "zzz") (map id (notes stA)) /\
  activeId stA = Some (u "a") /\
  activeId (handleSelectNote (u "zzz") stA) = Some (u "zzz") /\
  activeId (handleSelectNote (u "zzz") stA) <> activeId stA.
Proof.
  split; [simpl; intuition discriminate|].
  split; [reflexivity|]. split; [reflexivity|]. discriminate.
Qed.

End StoreFacts.

(** ** The persistence gateway *)

Module StorageFacts.
Import Storage.

Section LoadFacts.
Variable JSON_parse : jsstring -> result JSValue.

Lemma loadNotes_try_cases (s : Slot) :
  loadNotes_try JSON_parse s = Throw \/
  loadNotes_try JSON_parse s = Ok None \/
  exists items, loadNotes_try JSON_parse s = Ok (Some items).
Proof.
  unfold loadNotes_try, bind.
  destruct s as [| |[|c raw]]; simpl; auto.
  - right. right. now exists [].
  - right. right. now exists [].
  - destruct (JSON_parse (c :: raw)) as [v|]; auto.
    destruct v; try (right; left; reflexivity).
    right. right. eexists. reflexivity.
Qed.

Lemma loadNotes_total (s : Slot) : exists items, loadNotes JSON_parse s = Ok items.
Proof.
  unfold loadNotes.
  destruct (loadNotes_try_cases s) as [-> |[-> |[items ->]]]; simpl; eauto.
Qed.

End LoadFacts.

(** C8. [loadNotes] always returns, and never throws; when the storage
    cannot be read, the entry is missing or empty, its text is not JSON,
    or it decodes to a value that is not an array, it returns the empty
    list. *)
Theorem loadNotes_defensive :
  forall (JSON_parse : jsstring -> result JSValue) (s : Slot),
    (exists items, loadNotes JSON_parse s = Ok items) /\
    (undecodable JSON_parse s -> loadNotes JSON_parse s = Ok []).
Proof.
  intros JSON_parse s. split; [apply loadNotes_total|].
  unfold loadNotes, loadNotes_try.
  destruct s as [| |raw]; simpl; try reflexivity.
  destruct raw as [|c raw]; simpl; [reflexivity|].
  intros [H|[H|(v & H & Hv)]].
  - discriminate.
  - rewrite H. reflexivity.
  - rewrite H. simpl. destruct v; try reflexivity. discriminate.
Qed.

Lemma loadNotes_defensive_witness :
  undecodable Json.parse (Present (u "not json")) /\
  undecodable Json.parse (Present (u "{}")) /\
  loadNotes Json.parse (Present (u "not json")) = Ok [] /\
  loadNotes Json.parse (Present (u "{}")) = Ok [].
Proof.
  assert (H1 : undecodable Json.parse (Present (u "not json"))).
  { right. left. reflexivity. }
  assert (H2 : undecodable Json.parse (Present (u "{}"))).
  { right. right. exists (JObj []). split; reflexivity. }
  split; [exact H1|]. split; [exact H2|]. split.
  - exact (proj2 (loadNotes_defensive Json.parse (Present (u "not json"))) H1).
  - exact (proj2 (loadNotes_defensive Json.parse (Present (u "{}"))) H2).
Defined.

(** The text [{"id":"a"}] of an object, and the text ["x"] of a string. *)
Example loadNotes_not_an_array :
  loadNotes Json.parse
    (Present (u "{" ++ [34; 105; 100; 34] ++ u ":" ++ [34; 97; 34] ++ u "}"))%N
    = Ok [] /\
  loadNotes Json.parse (Present [34; 120; 34]%N) = Ok [] /\
  loadNotes Json.parse (Present (u "12")) = Ok [] /\
  loadNotes Json.parse (Present (u "null")) = Ok [] /\
  loadNotes Json.parse Absent = Ok [] /\
  loadNotes Json.parse Unavailable = Ok [].
Proof. repeat split. Qed.

(** C10. When the entry holds a non-empty text that decodes to an array,
    [loadNotes] returns the elements of that array as they are, whatever
    they are. *)
Theorem loadNotes_returns_array_verbatim :
  forall (JSON_parse : jsstring -> result JSValue) (raw : jsstring)
         (items : list JSValue),
    raw <> [] ->
    JSON_parse raw = Ok (JArr items) ->
    loadNotes JSON_parse (Present raw) = Ok items.
Proof.
  intros JSON_parse raw items Hne H. unfold loadNotes, loadNotes_try.
  destruct raw as [|c raw]; [contradiction|]. simpl. rewrite H. reflexivity.
Qed.

Lemma loadNotes_returns_array_verbatim_witness :
  u "[1,2,3]" <> [] /\
  Json.parse (u "[1,2,3]") = Ok (JArr [JNum 1 0; JNum 2 0; JNum 3 0]) /\
  loadNotes Json.parse (Present (u "[1,2,3]")) = Ok [JNum 1 0; JNum 2 0; JNum 3 0].
Proof.
  split; [discriminate|]. split; [reflexivity|].
  apply (loadNotes_returns_array_verbatim Json.parse (u "[1,2,3]"));
    [discriminate|reflexivity].
Defined.

(** An array of objects that lack the fields of a note, of an array, and
    of [null]: the text [[{}, {"id":"a"}, [true], null]]. *)
Example loadNotes_unvalidated :
  loadNotes Json.parse
    (Present (u "[{}, {" ++ [34; 105; 100; 34] ++ u ":" ++ [34; 97; 34]
              ++ u "}, [true], null]"))%N
  = Ok [JObj []; JObj [(u "id", JStr (u "a"))]; JArr [JBool true]; JNull].
Proof. reflexivity. Qed.

End StorageFacts.

(** ** The debounced callback *)

Module DebounceFacts.
Import Debounce.

Local Open Scope Z_scope.

Section TimerFacts.
Variable A : Type.
Variable delay : Z.

Lemma advance_idle (T : Z) (w : World A) :
  pending w = [] ->
  advance T w = mkWorld (Z.max (clock w) T) (next_id w) [] (timeoutRef w) (calls w).
Proof.
  intros H. unfold advance. rewrite H. simpl. now rewrite app_nil_r.
Qed.

Lemma advance_early (T : Z) (w : World A) (h : positive) (d : Z) (a : A) :
  pending w = [mkTimer h d a] -> T < d ->
  advance T w =
  mkWorld (Z.max (clock w) T) (next_id w) [mkTimer h d a] (timeoutRef w) (calls w).
Proof.
  intros H Hlt. unfold advance. rewrite H. simpl.
  destruct (Z.leb_spec d T); [lia|]. simpl. now rewrite app_nil_r.
Qed.

Lemma advance_due (T : Z) (w : World A) (h : positive) (d : Z) (a : A) :
  pending w = [mkTimer h d a] -> d <= T ->
  advance T w =
  mkWorld (Z.max (clock w) T) (next_id w) [] (timeoutRef w) (calls w ++ [a]).
Proof.
  intros H Hle. unfold advance. rewrite H. simpl.
  destruct (Z.leb_spec d T); [|lia]. reflexivity.
Qed.

(** Rescheduling cancels the timer that was armed and arms one for the
    new argument. *)
Lemma debounced_rearms (w : World A) (h : positive) (d : Z) (a a' : A) :
  0 < delay ->
  pending w = [mkTimer h d a] -> timeoutRef w = Some h ->
  debounced delay a' w =
  mkWorld (clock w) (Pos.succ (next_id w))
    [mkTimer (next_id w) (clock w + delay) a'] (Some (next_id w)) (calls w).
Proof.
  intros Hd Hp Hr. unfold debounced. rewrite Hr. unfold clearTimeout.
  rewrite Hp. simpl. rewrite Pos.eqb_refl. simpl.
  unfold setTimeout, set_ref. simpl. now rewrite Z.max_r by lia.
Qed.

Lemma debounced_first (w : World A) (a' : A) :
  0 < delay ->
  pending w = [] -> timeoutRef w = None ->
  debounced delay a' w =
  mkWorld (clock w) (Pos.succ (next_id w))
    [mkTimer (next_id w) (clock w + delay) a'] (Some (next_id w)) (calls w).
Proof.
  intros Hd Hp Hr. unfold debounced. rewrite Hr.
  unfold setTimeout, set_ref. simpl. rewrite Hp. simpl.
  now rewrite Z.max_r by lia.
Qed.

Lemma last_cons (X : Type) (l : list X) (x d : X) : last (x :: l) d = last l x.
Proof.
  revert x d. induction l as [|y l IH]; intros x d; [reflexivity|].
  change (last (x :: y :: l) d) with (last (y :: l) d).
  now rewrite (IH y d), (IH y x).
Qed.

(** During a burst the log of calls does not change, and after each call
    of the burst exactly one timer is pending, for the latest argument. *)
Lemma burst_armed (cs : list (Z * A)) (w : World A) (t : Z) (a : A) :
  0 < delay ->
  clock w = t -> armed w (t + delay) a -> rapid delay t cs ->
  clock (run delay (map (@schedule_of A) cs) w) = fst (last cs (t, a)) /\
  armed (run delay (map (@schedule_of A) cs) w)
    (fst (last cs (t, a)) + delay) (snd (last cs (t, a))) /\
  calls (run delay (map (@schedule_of A) cs) w) = calls w.
Proof.
  intros Hd. revert w t a.
  induction cs as [|[t' a'] cs IH]; intros w t a Hc Harmed Hrapid.
  - simpl. auto.
  - simpl in Hrapid. destruct Hrapid as (Hle & Hlt & Hrest).
    destruct Harmed as (h & Hp & Hr).
    set (w1 := step delay w (schedule_of (t', a'))).
    assert (E : w1 = mkWorld t' (Pos.succ (next_id w))
                       [mkTimer (next_id w) (t' + delay) a']
                       (Some (next_id w)) (calls w)).
    { unfold w1, schedule_of, step. simpl fst. simpl snd.
      rewrite (advance_early t' w h (t + delay) a Hp) by lia.
      rewrite (debounced_rearms _ h (t + delay) a a' Hd);
        [|reflexivity|exact Hr].
      simpl. rewrite Hc. now rewrite Z.max_r by lia. }
    assert (Hw1 : clock w1 = t' /\ armed w1 (t' + delay) a' /\ calls w1 = calls w).
    { rewrite E. simpl. repeat split. exists (next_id w). auto. }
    destruct Hw1 as (Hc1 & Ha1 & Hl1).
    destruct (IH w1 t' a' Hc1 Ha1 Hrest) as (H1 & H2 & H3).
    change (run delay (map (@schedule_of A) ((t', a') :: cs)) w)
      with (run delay (map (@schedule_of A) cs) w1).
    rewrite last_cons, H3, Hl1. auto.
Qed.

Lemma filter_none_pending (i : positive) (l : list (Timer A)) :
  (forall t, In t l -> Pos.eqb (timer_id t) i = true) ->
  filter (fun t => negb (Pos.eqb (timer_id t) i)) l = [].
Proof.
  induction l as [|t l IH]; intros H; simpl; [reflexivity|].
  rewrite (H t) by now left. simpl. apply IH. intros x Hx. apply H. now right.
Qed.

Lemma owned_step (w : World A) (e : event A) : owned w -> owned (step delay w e).
Proof.
  assert (Hadv : forall T (w0 : World A), owned w0 -> owned (advance T w0)).
  { intros T w0 H t Ht. unfold advance in Ht. simpl in *.
    apply filter_In in Ht as [Ht _]. now apply H. }
  assert (Hclear : forall w0 : World A,
             owned w0 -> pending (clearTimeout (timeoutRef w0) w0) = []).
  { intros w0 H. unfold clearTimeout.
    destruct (timeoutRef w0) as [i|] eqn:Er; simpl.
    - apply filter_none_pending. intros t Ht.
      specialize (H t Ht). rewrite Er in H. injection H as ->.
      now rewrite Pos.eqb_refl.
    - destruct (pending w0) as [|t l] eqn:Ep; [reflexivity|].
      specialize (H t). rewrite Ep, Er in H. discriminate H. now left. }
  intros H. destruct e as [t a|t|t]; simpl.
  - specialize (Hadv t w H). specialize (Hclear _ Hadv).
    set (w0 := advance t w) in *.
    unfold debounced. intros x Hx.
    destruct (timeoutRef w0) as [i|] eqn:Er.
    + simpl in Hx. unfold clearTimeout in Hclear. simpl in Hclear.
      rewrite Hclear in Hx. simpl in Hx. destruct Hx as [<-|[]]. reflexivity.
    + simpl in Hx. simpl in Hclear. rewrite Hclear in Hx. simpl in Hx.
      destruct Hx as [<-|[]]. reflexivity.
  - specialize (Hadv t w H). specialize (Hclear _ Hadv).
    unfold unmount. intros x Hx. rewrite Hclear in Hx. destruct Hx.
  - now apply Hadv.
Qed.

Lemma owned_run (es : list (event A)) (w : World A) :
  owned w -> owned (run delay es w).
Proof.
  revert w. induction es as [|e es IH]; intros w H; simpl; [exact H|].
  apply IH. now apply owned_step.
Qed.

Lemma owned_init (t0 : Z) : owned (init A t0).
Proof. intros t []. Qed.

(** After the cleanup no timer is pending. *)
Lemma unmount_cancels (w : World A) : owned w -> pending (unmount w) = [].
Proof.
  intros H. unfold unmount, clearTimeout.
  destruct (timeoutRef w) as [i|] eqn:Er; simpl.
  - apply filter_none_pending. intros t Ht.
    specialize (H t Ht). rewrite Er in H. injection H as ->.
    now rewrite Pos.eqb_refl.
  - destruct (pending w) as [|t l] eqn:Ep; [reflexivity|].
    specialize (H t). rewrite Ep, Er in H. discriminate H. now left.
Qed.

Lemma teardown_is_final (es : list (event A)) (t0 t T : Z) :
  calls (run delay (es ++ [Teardown t; Wait T]) (init A t0)) =
  calls (run delay (es ++ [Teardown t]) (init A t0)).
Proof.
  unfold run. rewrite !fold_left_app. cbn [fold_left step].
  set (w := fold_left (step delay) es (init A t0)).
  assert (Hw : owned (advance t w)).
  { change (owned (step delay w (Wait t))). apply owned_step.
    apply (owned_run es), owned_init. }
  rewrite (advance_idle T _ (unmount_cancels _ Hw)). reflexivity.
Qed.

End TimerFacts.

(** C9. A burst of calls of the debounced function, each less than the
    quiet period after the one before, leaves exactly one timer pending
    (each call cancels the timer of the call before) and calls the
    callback on nothing while it lasts; the callback is then called
    exactly once, a quiet period after the last call, on the argument of
    the last call, and on no other; if instead the cleanup runs before
    that time the callback is never called. After the cleanup, whatever
    came before it, the callback is not called any more. *)
Theorem debounce_coalesces :
  forall (A : Type) (delay t0 t1 : Z) (a1 : A) (cs : list (Z * A)),
    0 < delay ->
    t0 <= t1 ->
    rapid delay t1 cs ->
    let w := run delay (map (@schedule_of A) ((t1, a1) :: cs)) (init A t0) in
    let tN := fst (last cs (t1, a1)) in
    let aN := snd (last cs (t1, a1)) in
    calls w = [] /\
    armed w (tN + delay) aN /\
    (forall T, T < tN + delay -> calls (run delay [Wait T] w) = []) /\
    (forall T T', tN + delay <= T ->
       calls (run delay [Wait T] w) = [aN] /\
       calls (run delay [Wait T; Wait T'] w) = [aN]) /\
    (forall t T, t < tN + delay ->
       calls (run delay [Teardown t; Wait T] w) = []) /\
    (forall (es : list (event A)) (t T : Z),
       calls (run delay (es ++ [Teardown t; Wait T]) (init A t0)) =
       calls (run delay (es ++ [Teardown t]) (init A t0))).
Proof.
  intros A delay t0 t1 a1 cs Hd H01 Hrapid w tN aN.
  set (w1 := step delay (init A t0) (schedule_of (t1, a1))).
  assert (E1 : w1 = mkWorld t1 2%positive [mkTimer 1%positive (t1 + delay) a1]
                      (Some 1%positive) []).
  { unfold w1, schedule_of, step. simpl fst. simpl snd.
    rewrite advance_idle by reflexivity.
    rewrite debounced_first by (assumption || reflexivity).
    simpl. now rewrite Z.max_r by lia. }
  assert (Hc1 : clock w1 = t1) by now rewrite E1.
  assert (Ha1 : armed w1 (t1 + delay) a1).
  { rewrite E1. exists 1%positive. auto. }
  destruct (burst_armed A delay cs w1 t1 a1 Hd Hc1 Ha1 Hrapid)
    as (Hclock & Harmed & Hcalls).
  change (run delay (map (@schedule_of A) cs) w1) with w in *.
  fold tN aN in Hclock, Harmed.
  assert (Hcalls0 : calls w = []) by now rewrite Hcalls, E1.
  destruct Harmed as (h & Hp & Hr).
  split; [exact Hcalls0|]. split; [exists h; auto|].
  split; [|split; [|split]].
  - intros T HT. unfold run. cbn [fold_left step].
    now rewrite (advance_early A T w h _ aN Hp HT).
  - intros T T' HT. unfold run. cbn [fold_left step].
    rewrite (advance_due A T w h _ aN Hp HT), Hcalls0. split; [reflexivity|].
    now rewrite advance_idle.
  - intros t T Ht. unfold run. cbn [fold_left step].
    rewrite (advance_early A t w h _ aN Hp Ht).
    match goal with |- calls (advance T ?x) = [] => set (w2 := x) end.
    assert (Hp2 : pending w2 = []).
    { unfold w2, unmount, clearTimeout. simpl. rewrite Hr. simpl.
      now rewrite Pos.eqb_refl. }
    assert (Hc2 : calls w2 = []).
    { unfold w2, unmount, clearTimeout. simpl. rewrite Hr. exact Hcalls0. }
    rewrite (advance_idle A T w2 Hp2). exact Hc2.
  - intros es t T. apply teardown_is_final.
Qed.

Lemma debounce_coalesces_witness :
  0 < 300 /\
  0 <= 10 /\
  rapid 300 10 [(100, 2%nat); (399, 3%nat)] /\
  calls (run 300 (map (@schedule_of nat) [(10, 1%nat); (100, 2%nat); (399, 3%nat)])
           (init nat 0)) = [] /\
  calls (run 300 (map (@schedule_of nat) [(10, 1%nat); (100, 2%nat); (399, 3%nat)]
                    ++ [Wait 699])
           (init nat 0)) = [3%nat] /\
  calls (run 300 (map (@schedule_of nat) [(10, 1%nat); (100, 2%nat); (399, 3%nat)]
                    ++ [Teardown 500; Wait 5000])
           (init nat 0)) = [].
Proof.
  assert (Hr : rapid 300 10 [(100, 2%nat); (399, 3%nat)]).
  { simpl. lia. }
  split; [lia|]. split; [lia|]. split; [exact Hr|].
  destruct (debounce_coalesces nat 300 0 10 1%nat [(100, 2%nat); (399, 3%nat)]
              ltac:(lia) ltac:(lia) Hr) as (H1 & _ & _ & H3 & H4 & _).
  split; [exact H1|]. split.
  - unfold run in *. rewrite fold_left_app.
    exact (proj1 (H3 699 699 ltac:(simpl; lia))).
  - unfold run in *. rewrite fold_left_app.
    exact (H4 500 5000 ltac:(simpl; lia)).
Defined.

(** Two edits of a note 10 ms apart are saved once, 300 ms after the
    second, as the notes are after the second. *)
Example rapid_updates_one_save :
  let notes1 := Store.updateNote (Store.spread Store.noteA Store.patch_title_pinned)
                  10 [Store.noteA] in
  let notes2 := Store.updateNote (Store.spread Store.noteA Store.patch_createdAt)
                  20 notes1 in
  calls (advance 319 (App.notes_changed 20 notes2
                        (App.notes_changed 10 notes1 (init _ 0)))) = [] /\
  calls (advance 320 (App.notes_changed 20 notes2
                        (App.notes_changed 10 notes1 (init _ 0)))) = [notes2].
Proof. split; reflexivity. Qed.

(** Without a quiet period between them three calls give one call of the
    callback; with one, each gives its own. *)
Example debounce_runs :
  calls (run 300 [Schedule 0 1%nat; Schedule 299 2%nat; Schedule 598 3%nat;
                  Wait 10000] (init nat 0)) = [3%nat] /\
  calls (run 300 [Schedule 0 1%nat; Schedule 300 2%nat; Schedule 598 3%nat;
                  Wait 10000] (init nat 0)) = [1%nat; 3%nat].
Proof. split; reflexivity. Qed.

End DebounceFacts.

(** ** The markdown renderer *)

Module MarkdownFacts.
Import Markdown.

Local Open Scope N_scope.

(** *** Escaping *)

Lemma replace_char_app (c : N) (rep a b : jsstring) :
  replace_char c rep (a ++ b) = replace_char c rep a ++ replace_char c rep b.
Proof. unfold replace_char. apply flat_map_app. Qed.

Lemma esc_app (a b : jsstring) : esc (a ++ b) = esc a ++ esc b.
Proof. unfold esc. now rewrite !replace_char_app. Qed.

Lemma esc_single (c : N) : esc [c] = esc_char c.
Proof.
  unfold esc, esc_char, replace_char.
  destruct (N.eqb_spec c AMP) as [->|H1]; [reflexivity|].
  destruct (N.eqb_spec c LT) as [->|H2]; [reflexivity|].
  destruct (N.eqb_spec c GT) as [->|H3]; [reflexivity|].
  simpl. apply N.eqb_neq in H1, H2, H3.
  rewrite H1. simpl. rewrite H2. simpl. now rewrite H3.
Qed.

Lemma esc_cons (c : N) (s : jsstring) : esc (c :: s) = esc_char c ++ esc s.
Proof. change (c :: s) with ([c] ++ s). now rewrite esc_app, esc_single. Qed.

Lemma esc_char_plain (c : N) : plain c -> esc_char c = [c].
Proof.
  intros (H1 & H2 & H3). unfold esc_char.
  apply N.eqb_neq in H1, H2, H3. now rewrite H1, H2, H3.
Qed.

(** The first character of [esc_char c] is [c] or [&]. *)
Lemma esc_char_head (c : N) :
  exists d r, esc_char c = d :: r /\ (d = c \/ (d = AMP /\ ~ plain c)).
Proof.
  unfold esc_char.
  destruct (N.eqb_spec c AMP) as [->|H1].
  { eexists _, _. split; [reflexivity|]. now left. }
  destruct (N.eqb_spec c LT) as [->|H2].
  { eexists _, _. split; [reflexivity|]. right. split; [reflexivity|].
    intros (_ & H & _). now apply H. }
  destruct (N.eqb_spec c GT) as [->|H3].
  { eexists _, _. split; [reflexivity|]. right. split; [reflexivity|].
    intros (_ & _ & H). now apply H. }
  eexists _, _. split; [reflexivity|]. now left.
Qed.

Lemma is_ws_plain (c : N) : is_ws c = true -> plain c.
Proof.
  intros H. repeat split; intros ->; discriminate H.
Qed.

Lemma drop_ws_esc (s : jsstring) : drop_ws (esc s) = esc (drop_ws s).
Proof.
  induction s as [|c s IH]; [reflexivity|].
  rewrite esc_cons. simpl drop_ws at 2.
  destruct (is_ws c) eqn:E.
  - rewrite (esc_char_plain c (is_ws_plain c E)). simpl. now rewrite E.
  - rewrite esc_cons.
    destruct (esc_char_head c) as (d & r & Ed & [->|[-> _]]); rewrite Ed; simpl.
    + now rewrite E.
    + reflexivity.
Qed.

Lemma strip_prefix_esc (p s : jsstring) :
  Forall plain p ->
  strip_prefix p (esc s) =
  match strip_prefix p s with Some r => Some (esc r) | None => None end.
Proof.
  intros Hp. revert s. induction Hp as [|a p Ha _ IH]; intros s; [reflexivity|].
  destruct s as [|c s]; [reflexivity|].
  rewrite esc_cons. simpl strip_prefix at 2.
  destruct (N.eqb_spec a c) as [->|Hne].
  - rewrite (esc_char_plain c Ha). simpl. rewrite N.eqb_refl. apply IH.
  - destruct (esc_char_head c) as (d & r & Ed & [->|[-> _]]); rewrite Ed; simpl.
    + apply N.eqb_neq in Hne. now rewrite Hne.
    + destruct Ha as (Ha & _). apply N.eqb_neq in Ha. now rewrite Ha.
Qed.

Lemma match_heading_esc (hashes line : jsstring) :
  Forall plain hashes ->
  match_heading hashes (esc line) =
  match match_heading hashes line with Some r => Some (esc r) | None => None end.
Proof.
  intros Hp. unfold match_heading. rewrite (strip_prefix_esc _ _ Hp).
  destruct (strip_prefix hashes line) as [[|c t]|]; try reflexivity.
  rewrite esc_cons.
  destruct (is_ws c) eqn:E.
  - rewrite (esc_char_plain c (is_ws_plain c E)). simpl. rewrite E.
    now rewrite drop_ws_esc.
  - destruct (esc_char_head c) as (d & r & Ed & [->|[-> _]]); rewrite Ed; simpl.
    + now rewrite E.
    + reflexivity.
Qed.

Lemma hashes_plain : Forall plain (u "###") /\ Forall plain (u "##") /\ Forall plain (u "#").
Proof.
  repeat split; repeat constructor; discriminate.
Qed.

(** The renderer of the source does what the renderer that escapes
    first does, on every line. *)
Lemma render_line_escape_first (line : jsstring) :
  render_line line = render_escaped_line (esc line).
Proof.
  destruct hashes_plain as (H3 & H2 & H1).
  unfold render_line, render_escaped_line, test_heading, strip_heading.
  rewrite !match_heading_esc by assumption.
  destruct (match_heading (u "###") line); [reflexivity|].
  destruct (match_heading (u "##") line); [reflexivity|].
  destruct (match_heading (u "#") line); reflexivity.
Qed.

(** *** The inline patterns *)

Lemma lazy_more_app (close s g r : jsstring) :
  lazy_more close s = Some (g, r) -> s = g ++ close ++ r.
Proof.
  revert g r. induction s as [|c s IH]; intros g r.
  - simpl. destruct (strip_prefix close []) as [r0|] eqn:E; [|discriminate].
    intros H. injection H as <- <-. now apply strip_prefix_app in E.
  - simpl. destruct (strip_prefix close (c :: s)) as [r0|] eqn:E.
    + intros H. injection H as <- <-. now apply strip_prefix_app in E.
    + destruct (is_line_terminator c); [discriminate|].
      destruct (lazy_more close s) as [[g0 r0]|]; [|discriminate].
      intros H. injection H as <- <-. simpl. f_equal. now apply IH.
Qed.

Lemma match_at_app (open close s g r : jsstring) :
  match_at open close s = Some (g, r) ->
  s = open ++ g ++ close ++ r /\ g <> [].
Proof.
  unfold match_at. destruct (strip_prefix open s) as [[|c t]|] eqn:E;
    try discriminate.
  apply strip_prefix_app in E.
  destruct (is_line_terminator c); [discriminate|].
  destruct (lazy_more close t) as [[g0 r0]|] eqn:El; [|discriminate].
  intros H. injection H as <- <-. apply lazy_more_app in El.
  split; [|discriminate]. rewrite E, El. reflexivity.
Qed.

Lemma match_at_other_head (o : N) (open close : jsstring) (c : N) (t : jsstring) :
  c <> o -> match_at (o :: open) close (c :: t) = None.
Proof.
  intros H. unfold match_at. simpl.
  apply not_eq_sym in H. apply N.eqb_neq in H. now rewrite H.
Qed.

Section Replace.
Variables open close pre post : jsstring.

Let replace := replace_go open close pre post.

Lemma replace_go_skip (w r : jsstring) :
  replace (length w) (w ++ r) = replace 0 r.
Proof.
  induction w as [|x w IH]; [reflexivity|]. exact IH.
Qed.

(** The equation of the global replacement: at a match, the replacement
    and then the replacement of what follows the match; otherwise one
    character and then the replacement of the rest. *)
Lemma replace_delimited_cons (c : N) (t : jsstring) :
  replace_delimited open close pre post (c :: t) =
  match match_at open close (c :: t) with
  | Some (g, r) => pre ++ g ++ post ++ replace_delimited open close pre post r
  | None => c :: replace_delimited open close pre post t
  end.
Proof.
  unfold replace_delimited. simpl.
  destruct (match_at open close (c :: t)) as [[g r]|] eqn:E; [|reflexivity].
  apply match_at_app in E as [E Hg].
  assert (Ht : exists w, t = w ++ r /\
                         length w = (length open + length g + length close - 1)%nat).
  { destruct (open ++ g ++ close) as [|x w] eqn:Ew.
    - exfalso. destruct open; [|discriminate]. destruct g; [now apply Hg|discriminate].
    - exists w.
      assert (E' : c :: t = (x :: w) ++ r).
      { rewrite <- Ew, E, <- !app_assoc. reflexivity. }
      simpl in E'. injection E' as _ E'.
      split; [exact E'|].
      apply (f_equal (@length N)) in Ew. rewrite !length_app in Ew.
      simpl in Ew. lia. }
  destruct Ht as (w & -> & <-).
  do 3 f_equal. apply replace_go_skip.
Qed.

End Replace.

(** Characters that cannot begin a match are copied. *)
Lemma replace_delimited_copy (o : N) (open close pre post w r : jsstring) :
  Forall (fun x => x <> o) w ->
  replace_delimited (o :: open) close pre post (w ++ r) =
  w ++ replace_delimited (o :: open) close pre post r.
Proof.
  induction 1 as [|x w Hx _ IH]; [reflexivity|].
  simpl app. rewrite replace_delimited_cons.
  rewrite (match_at_other_head o open close x _ Hx). now rewrite IH.
Qed.

(** *** Texts with the tags of the renderer only *)

Lemma wt_app (a b : jsstring) :
  well_tagged a -> well_tagged b -> well_tagged (a ++ b).
Proof.
  induction 1 as [|c s H1 H2 _ IH|t s Ht _ IH]; intros Hb.
  - exact Hb.
  - simpl. apply wt_char; auto.
  - rewrite <- app_assoc. apply wt_tag; auto.
Qed.

Lemma wt_tag_alone (t : jsstring) : In t tags -> well_tagged t.
Proof.
  intros H. rewrite <- (app_nil_r t). apply wt_tag; [exact H|apply wt_nil].
Qed.

Lemma wt_esc_char (c : N) : well_tagged (esc_char c).
Proof.
  unfold esc_char.
  destruct (N.eqb_spec c AMP); [repeat (apply wt_char; try discriminate); apply wt_nil|].
  destruct (N.eqb_spec c LT) as [|H1];
    [repeat (apply wt_char; try discriminate); apply wt_nil|].
  destruct (N.eqb_spec c GT) as [|H2];
    [repeat (apply wt_char; try discriminate); apply wt_nil|].
  apply wt_char; [exact H1|exact H2|apply wt_nil].
Qed.

Lemma wt_esc (s : jsstring) : well_tagged (esc s).
Proof.
  induction s as [|c s IH]; [apply wt_nil|].
  rewrite esc_cons. apply wt_app; [apply wt_esc_char|exact IH].
Qed.

Lemma tags_no_delim (t : jsstring) (c : N) :
  In t tags -> In c t -> ~ delim c.
Proof.
  intros Ht Hc [-> | ->]; unfold tags in Ht; simpl in Ht;
    repeat (destruct Ht as [<-|Ht];
            [simpl in Hc; repeat (destruct Hc as [Hc|Hc]; [discriminate Hc|]);
             exact Hc|]);
    exact Ht.
Qed.

Lemma tags_not_empty (t : jsstring) : In t tags -> t <> [].
Proof.
  intros Ht ->. unfold tags in Ht. simpl in Ht.
  repeat (destruct Ht as [Ht|Ht]; [discriminate Ht|]). exact Ht.
Qed.

(** Cutting a text at a delimiter cuts no tag. *)
Lemma wt_split (s : jsstring) :
  well_tagged s ->
  forall a c b, s = a ++ c :: b -> delim c -> well_tagged a /\ well_tagged b.
Proof.
  induction 1 as [|x s H1 H2 Hs IH|t s Ht Hs IH]; intros a c b E Hc.
  - destruct a; discriminate.
  - destruct a as [|y a]; simpl in E; injection E as -> ->.
    + split; [apply wt_nil|exact Hs].
    + destruct (IH a c b eq_refl Hc) as [Ha Hb].
      split; [apply wt_char; auto|exact Hb].
  - apply app_eq_app in E as [l [[-> E]|[-> E]]].
    + destruct l as [|y l].
      * simpl in E. rewrite app_nil_r in *.
        destruct (IH [] c b (eq_sym E) Hc) as [_ Hb].
        split; [now apply wt_tag_alone|exact Hb].
      * simpl in E. injection E as -> ->.
        exfalso. apply (tags_no_delim _ y Ht); [|exact Hc].
        apply in_or_app. right. now left.
    + destruct (IH l c b E Hc) as [Hl Hb].
      split; [apply wt_tag; auto|exact Hb].
Qed.

Lemma wt_strip_delims (d s : jsstring) :
  Forall delim d -> well_tagged (d ++ s) -> well_tagged s.
Proof.
  induction 1 as [|c d Hc _ IH]; intros H; [exact H|].
  apply IH. simpl in H. now apply (wt_split _ H [] c (d ++ s) eq_refl Hc).
Qed.

(** A global replacement of a delimited pattern by a pair of tags keeps
    a text well tagged. *)
Lemma wt_replace (o : N) (open close pre post : jsstring) :
  Forall delim (o :: open) -> Forall delim close -> close <> [] ->
  In pre tags -> In post tags ->
  forall s, well_tagged s ->
            well_tagged (replace_delimited (o :: open) close pre post s).
Proof.
  intros Hopen Hclose Hne Hpre Hpost.
  assert (Ho : delim o) by now inversion Hopen.
  assert (H : forall n s, (length s <= n)%nat -> well_tagged s ->
                          well_tagged (replace_delimited (o :: open) close pre post s)).
  { induction n as [|n IH]; intros s Hlen Hwt.
    - destruct s; [apply wt_nil|simpl in Hlen; lia].
    - pose proof Hwt as Hwt0. revert Hlen Hwt0.
      destruct Hwt as [|c s H1 H2 Hs|t s Ht Hs]; intros Hlen Hwt0.
      + apply wt_nil.
      + rewrite replace_delimited_cons.
        destruct (match_at (o :: open) close (c :: s)) as [[g r]|] eqn:E.
        * apply match_at_app in E as [E _].
          rewrite E in Hwt0, Hlen.
          apply (wt_strip_delims _ _ Hopen) in Hwt0.
          destruct close as [|k close']; [contradiction|].
          inversion Hclose as [|? ? Hk Hclose']; subst.
          destruct (wt_split _ Hwt0 g k (close' ++ r) eq_refl Hk) as [Hg Hr].
          apply (wt_strip_delims _ _ Hclose') in Hr.
          apply wt_tag; [exact Hpre|]. apply wt_app; [exact Hg|].
          apply wt_tag; [exact Hpost|]. apply IH; [|exact Hr].
          rewrite ?length_app in Hlen. simpl in Hlen.
          rewrite ?length_app in Hlen. simpl in Hlen. lia.
        * apply wt_char; [exact H1|exact H2|]. apply IH; [|exact Hs].
          simpl in Hlen. lia.
      + rewrite replace_delimited_copy.
        * apply wt_tag; [exact Ht|]. apply IH; [|exact Hs].
          pose proof (tags_not_empty t Ht) as Hte.
          rewrite length_app in Hlen. destruct t; [contradiction|].
          simpl in Hlen. lia.
        * apply Forall_forall. intros x Hx ->.
          now apply (tags_no_delim t o Ht Hx). }
  intros s. now apply (H (length s)).
Qed.

Lemma in_tags (t : jsstring) :
  existsb (str_eqb t) tags = true -> In t tags.
Proof.
  intros H. apply existsb_exists in H as (x & Hx & E).
  apply str_eqb_eq in E. now subst.
Qed.

Lemma wt_inline (l : jsstring) : well_tagged l -> well_tagged (inline l).
Proof.
  intros H. unfold inline.
  assert (Hs : delim STAR) by now left.
  assert (Hb : delim BACKTICK) by now right.
  repeat (apply wt_replace;
          [repeat constructor; assumption | repeat constructor; assumption
          | discriminate | apply in_tags; reflexivity
          | apply in_tags; reflexivity | ]).
  exact H.
Qed.

Lemma wt_heading (topen tclose body : jsstring) :
  In topen tags -> In tclose tags -> well_tagged body ->
  well_tagged (topen ++ body ++ tclose).
Proof.
  intros H1 H2 Hb. apply wt_tag; [exact H1|].
  apply wt_app; [exact Hb|now apply wt_tag_alone].
Qed.

Lemma wt_render_line (line : jsstring) : well_tagged (render_line line).
Proof.
  unfold render_line.
  destruct (test_heading (u "###") line);
    [apply wt_heading; try (apply in_tags; reflexivity); apply wt_esc|].
  destruct (test_heading (u "##") line);
    [apply wt_heading; try (apply in_tags; reflexivity); apply wt_esc|].
  destruct (test_heading (u "#") line);
    [apply wt_heading; try (apply in_tags; reflexivity); apply wt_esc|].
  destruct (length (trim (esc line)) =? 0)%nat.
  - apply wt_tag_alone, in_tags. reflexivity.
  - apply wt_heading; try (apply in_tags; reflexivity).
    apply wt_inline, wt_esc.
Qed.

Lemma wt_join (ls : list jsstring) :
  Forall well_tagged ls -> well_tagged (join [10] ls).
Proof.
  induction 1 as [|x ls Hx Hls IH]; [apply wt_nil|].
  destruct ls as [|y ls]; [exact Hx|].
  change (join [10] (x :: y :: ls)) with (x ++ [10] ++ join [10] (y :: ls)).
  apply wt_app; [exact Hx|].
  apply wt_char; [discriminate|discriminate|exact IH].
Qed.

Lemma wt_render (text : jsstring) : well_tagged (renderBasicMarkdown text).
Proof.
  unfold renderBasicMarkdown. apply wt_join.
  apply Forall_forall. intros x Hx. apply in_map_iff in Hx as (line & <- & _).
  apply wt_render_line.
Qed.

Lemma tags_lt_only_head (t : jsstring) : In t tags -> ~ In LT (tl t).
Proof.
  intros Ht Hin. unfold tags in Ht. simpl in Ht.
  repeat (destruct Ht as [<-|Ht];
          [simpl in Hin; repeat (destruct Hin as [Hin|Hin]; [discriminate Hin|]);
           exact Hin|]).
  exact Ht.
Qed.

(** In a well tagged text every [<] begins one of the tags. *)
Lemma wt_angle (s : jsstring) :
  well_tagged s ->
  forall a b, s = a ++ LT :: b -> exists t r, In t tags /\ LT :: b = t ++ r.
Proof.
  induction 1 as [|c s H1 H2 Hs IH|t s Ht Hs IH]; intros a b E.
  - destruct a; discriminate.
  - destruct a as [|y a]; simpl in E; injection E as -> ->.
    + contradiction.
    + now apply (IH a b).
  - apply app_eq_app in E as [l [[-> E]|[-> E]]].
    + destruct l as [|y l].
      * simpl in E. now apply (IH [] b).
      * simpl in E. injection E as <- ->.
        destruct a as [|x a].
        -- exists (LT :: l), s. split; [exact Ht|reflexivity].
        -- exfalso. apply (tags_lt_only_head _ Ht). simpl.
           apply in_or_app. right. now left.
    + now apply (IH l b).
Qed.

Lemma wt_no_script (s : jsstring) :
  well_tagged s -> includes (u "<script>") s = false.
Proof.
  intros H. destruct (includes (u "<script>") s) eqn:E; [|reflexivity].
  apply includes_substring in E as (a & b & E).
  change (u "<script>" ++ b) with (LT :: (u "script>" ++ b)) in E.
  destruct (wt_angle s H a _ E) as (t & r & Ht & Et).
  exfalso. unfold tags in Ht. simpl in Ht.
  repeat (destruct Ht as [<-|Ht]; [discriminate Et|]). exact Ht.
Qed.

(** C1. The renderer of the source computes, on every text, what the
    renderer computes that escapes [&], [<] and [>] in each line before
    it tests for a heading, strips the prefix of a heading or applies an
    inline pattern. In its output [<] and [>] occur only in the tags the
    renderer writes itself: every [<] of the output begins one of them,
    and the text "<script>" never occurs. The text "<script>" is rendered
    as an escaped paragraph, and the text with a bold "a", an italic "b"
    and a code "c" as one paragraph with the three of them. *)
Theorem renderBasicMarkdown_escapes_first :
  (forall text : jsstring,
     renderBasicMarkdown text = render_escape_first text /\
     well_tagged (renderBasicMarkdown text) /\
     (forall a b, renderBasicMarkdown text = a ++ LT :: b ->
                  exists t r, In t tags /\ LT :: b = t ++ r) /\
     includes (u "<script>") (renderBasicMarkdown text) = false) /\
  renderBasicMarkdown (u "<script>") = u "<p>&lt;script&gt;</p>" /\
  renderBasicMarkdown (u "**a** *b* `c`") =
    u "<p><strong>a</strong> <em>b</em> <code>c</code></p>".
Proof.
  split; [|split; reflexivity].
  intros text. split; [|split; [|split]].
  - unfold renderBasicMarkdown, render_escape_first. f_equal.
    apply map_ext. apply render_line_escape_first.
  - apply wt_render.
  - apply wt_angle, wt_render.
  - apply wt_no_script, wt_render.
Qed.

Lemma renderBasicMarkdown_escapes_first_witness :
  renderBasicMarkdown (u "<script>") = [] ++ LT :: u "p>&lt;script&gt;</p>" /\
  exists t r, In t tags /\ LT :: u "p>&lt;script&gt;</p>" = t ++ r.
Proof.
  split; [reflexivity|].
  exact (proj1 (proj2 (proj2
           (proj1 renderBasicMarkdown_escapes_first (u "<script>"))))
           [] (u "p>&lt;script&gt;</p>") eq_refl).
Defined.

(** Headings, blank lines and patterns that overlap. *)
Example renderBasicMarkdown_lines :
  renderBasicMarkdown (u "# <T> & x" ++ [10] ++ u "##  two" ++ [10] ++ [10]
                       ++ u "### **a** b" ++ [10] ++ u "#nohead" ++ [10]
                       ++ u "***a** `*x`*") =
  u "<h1>&lt;T&gt; &amp; x</h1>" ++ [10] ++ u "<h2>two</h2>" ++ [10]
  ++ u "<br/>" ++ [10] ++ u "<h3>**a** b</h3>" ++ [10]
  ++ u "<p>#nohead</p>" ++ [10]
  ++ u "<p><strong><em>a</strong> <code></em>x</code>*</p>".
Proof. reflexivity. Qed.

End MarkdownFacts.

(** ** The note store: the other operations *)

Module StoreExtras.
Import Store StoreFacts.

Local Open Scope Z_scope.

(** X1. An update for an id that no note of the collection has leaves
    the collection as it is. *)
Theorem updateNote_absent_id :
  forall (next : Note) (now : Z) (prev : list Note),
    ~ In (id next) (map id prev) ->
    updateNote next now prev = prev.
Proof.
  intros next now prev Habsent. unfold updateNote.
  rewrite <- (map_id prev) at 2. apply map_ext_in. intros n Hn.
  destruct (str_eqb (id n) (id next)) eqn:E; [|reflexivity].
  apply str_eqb_eq in E. exfalso. apply Habsent.
  rewrite <- E. now apply in_map.
Qed.

Lemma updateNote_absent_id_witness :
  ~ In (id noteA) (map id [noteX; noteY]) /\
  updateNote noteA 7 [noteX; noteY] = [noteX; noteY].
Proof.
  assert (H : ~ In (id noteA) (map id [noteX; noteY])).
  { simpl. intuition discriminate. }
  split; [exact H|]. exact (updateNote_absent_id noteA 7 [noteX; noteY] H).
Defined.

(** *** The active note after an update *)

Lemma find_updateNote (next : Note) (now : Z) (prev : list Note) (a : Note) :
  find (fun n => str_eqb (id n) (id next)) prev = Some a ->
  find (fun n => str_eqb (id n) (id next)) (updateNote next now prev) =
  Some (stamp next now).
Proof.
  induction prev as [|x prev IH]; simpl; [discriminate|].
  destruct (str_eqb (id x) (id next)) eqn:E.
  - intros _. simpl. now rewrite str_eqb_refl.
  - intros H. rewrite E. now apply IH.
Qed.

Lemma activeNote_updateNote (st : State) (a next : Note) (now : Z) :
  activeNote st = Some a -> id next = id a ->
  activeNote (mkState (updateNote next now (notes st)) (activeId st) (search st))
  = Some (stamp next now).
Proof.
  intros Ha Hid. destruct (activeNote_Some _ _ Ha) as (Hact & _).
  unfold activeNote in *. simpl. rewrite Hact in *. rewrite <- Hid in *.
  now apply find_updateNote with (a := a).
Qed.

Lemma activeNote_id (st : State) (a : Note) :
  activeNote st = Some a -> activeId st = Some (id a).
Proof. intros H. now destruct (activeNote_Some _ _ H). Qed.

(** *** Invariants of the state *)

Lemma visibleNotes_ids (lower : jsstring -> jsstring) (ns : list Note)
    (s : jsstring) (n : Note) :
  In n (visibleNotes lower ns s) -> In (id n) (map id ns).
Proof.
  intros Hn. apply in_map. unfold visibleNotes in Hn.
  apply (Permutation_in _ (Permutation_sym (Sidebar_sorted_perm _))) in Hn.
  rewrite filteredNotes_filter in Hn. now apply filter_In in Hn.
Qed.

Lemma pointer_ok_same_ids (st st' : State) :
  map id (notes st') = map id (notes st) -> activeId st' = activeId st ->
  pointer_ok st -> pointer_ok st'.
Proof. unfold pointer_ok. intros -> ->. auto. Qed.

Lemma edit_same_ids (st : State) (p : Patch) (now : Z) (a : Note) :
  map id (updateNote (spread a p) now (notes st)) = map id (notes st).
Proof. apply updateNote_ids. Qed.

Lemma pointer_ok_delete (ok : bool) (st : State) :
  pointer_ok st -> pointer_ok (handleDeleteNote ok st).
Proof.
  intros H. unfold handleDeleteNote.
  destruct (activeNote st) as [a|]; [|exact H].
  destruct ok; simpl; [|exact H].
  unfold pointer_ok. simpl.
  set (remaining := filter (fun n => negb (str_eqb (id n) (id a))) (notes st)).
  destruct (sort_by sortByUpdated remaining) as [|m r] eqn:E; simpl; [exact I|].
  destruct (id m) as [|c i] eqn:Em; simpl; [exact I|].
  rewrite <- Em. apply in_map.
  apply (Permutation_in _ (Permutation_sym (sort_by_perm _ sortByUpdated remaining))).
  rewrite E. now left.
Qed.

Lemma pointer_ok_dispatch (lower : jsstring -> jsstring) (st : State) (i : intent) :
  pointer_ok st -> pointer_ok (dispatch lower st i).
Proof.
  intros H. destruct i as [c r n1 n2|v now|v now|now|ok|k|text]; simpl.
  - unfold pointer_ok. simpl. now left.
  - unfold handleTitle. destruct (activeNote st) as [a|]; [|exact H].
    apply (pointer_ok_same_ids st); [apply edit_same_ids|reflexivity|exact H].
  - unfold handleContent. destruct (activeNote st) as [a|]; [|exact H].
    apply (pointer_ok_same_ids st); [apply edit_same_ids|reflexivity|exact H].
  - unfold handleTogglePin. destruct (activeNote st) as [a|]; [|exact H].
    apply (pointer_ok_same_ids st); [apply edit_same_ids|reflexivity|exact H].
  - now apply pointer_ok_delete.
  - destruct (nth_error (visibleNotes lower (notes st) (search st)) k)
      as [n|] eqn:E; [|exact H].
    unfold pointer_ok. simpl. apply nth_error_In in E.
    now apply visibleNotes_ids in E.
  - exact H.
Qed.

Lemma pointer_ok_initial (loaded : list Note) : pointer_ok (initialState loaded).
Proof.
  unfold pointer_ok, initialState. simpl.
  destruct loaded as [|n rest]; simpl; [exact I|].
  destruct (id n) eqn:E; simpl; [exact I|]. left. reflexivity.
Qed.

Lemma pointer_ok_active (st : State) :
  pointer_ok st ->
  activeId st = None \/
  exists n, activeNote st = Some n /\ activeId st = Some (id n) /\ In n (notes st).
Proof.
  unfold pointer_ok, activeNote. destruct (activeId st) as [a|]; [|now left].
  intros H. right. apply in_map_iff in H as (n & Hn & Hin).
  destruct (find (fun n0 => str_eqb (id n0) a) (notes st)) as [m|] eqn:E.
  - exists m. apply find_some in E as [Hm E]. apply str_eqb_eq in E.
    subst a. repeat split; [now rewrite E|exact Hm].
  - exfalso. apply (find_none _ _ E) in Hin. simpl in Hin.
    rewrite Hn, str_eqb_refl in Hin. discriminate.
Qed.

(** X2. From the initial state, whatever the notes loaded, and after
    any sequence of actions of the user (new note, edits of the title and
    of the content, pin, delete, click on an item of the sidebar,
    search), the active id is none or the id of a note of the
    collection, and that note is the active note. *)
Theorem active_pointer_never_dangles :
  forall (toLowerCase : jsstring -> jsstring) (loaded : list Note)
         (intents : list intent),
    let st := fold_left (dispatch toLowerCase) intents (initialState loaded) in
    activeId st = None \/
    exists n, activeNote st = Some n /\ activeId st = Some (id n) /\
              In n (notes st).
Proof.
  intros lower loaded intents st. apply pointer_ok_active. unfold st.
  generalize (pointer_ok_initial loaded).
  generalize (initialState loaded). clear st.
  induction intents as [|i r IH]; intros s Hs; simpl; [exact Hs|].
  apply IH. now apply pointer_ok_dispatch.
Qed.

Lemma NoDup_map_filter (A B : Type) (g : A -> B) (f : A -> bool) (l : list A) :
  NoDup (map g l) -> NoDup (map g (filter f l)).
Proof.
  induction l as [|x l IH]; simpl; intros H; [constructor|].
  inversion H as [|? ? Hx Hl]; subst.
  destruct (f x); simpl; [|now apply IH].
  constructor; [|now apply IH].
  intros Hin. apply Hx. apply in_map_iff in Hin as (y & Ey & Hy).
  apply filter_In in Hy as [Hy _]. rewrite <- Ey. now apply in_map.
Qed.

Lemma ids_ok_same_ids (st st' : State) :
  map id (notes st') = map id (notes st) -> ids_ok st -> ids_ok st'.
Proof. unfold ids_ok. intros ->. auto. Qed.

Lemma ids_ok_dispatch (lower : jsstring -> jsstring) (st : State) (i : intent) :
  match i with
  | NewNote c r _ _ => ~ In (uid c r) (map id (notes st))
  | _ => True
  end ->
  ids_ok st -> ids_ok (dispatch lower st i).
Proof.
  intros Hfresh H. destruct i as [c r n1 n2|v now|v now|now|ok|k|text]; simpl.
  - destruct H as [H1 H2]. split; simpl.
    + constructor; assumption.
    + constructor; [apply uid_not_empty|exact H2].
  - unfold handleTitle. destruct (activeNote st) as [a|]; [|exact H].
    apply (ids_ok_same_ids st); [apply edit_same_ids|exact H].
  - unfold handleContent. destruct (activeNote st) as [a|]; [|exact H].
    apply (ids_ok_same_ids st); [apply edit_same_ids|exact H].
  - unfold handleTogglePin. destruct (activeNote st) as [a|]; [|exact H].
    apply (ids_ok_same_ids st); [apply edit_same_ids|exact H].
  - unfold handleDeleteNote. destruct (activeNote st) as [a|]; [|exact H].
    destruct ok; simpl; [|exact H].
    destruct H as [H1 H2]. split; simpl.
    + now apply NoDup_map_filter.
    + apply Forall_forall. intros x Hx. rewrite Forall_forall in H2. apply H2.
      apply in_map_iff in Hx as (n & <- & Hn). apply filter_In in Hn as [Hn _].
      now apply in_map.
  - destruct (nth_error (visibleNotes lower (notes st) (search st)) k); exact H.
  - exact H.
Qed.

(** X3. When the notes loaded have ids that are distinct and not empty,
    and every id that [uid] makes is new when it is made, the ids of the
    collection are distinct and not empty after any sequence of actions
    of the user. *)
Theorem ids_stay_distinct :
  forall (toLowerCase : jsstring -> jsstring) (loaded : list Note)
         (intents : list intent),
    NoDup (map id loaded) ->
    Forall (fun i => i <> []) (map id loaded) ->
    fresh_ids toLowerCase (initialState loaded) intents ->
    let st := fold_left (dispatch toLowerCase) intents (initialState loaded) in
    NoDup (map id (notes st)) /\ Forall (fun i => i <> []) (map id (notes st)).
Proof.
  intros lower loaded intents H1 H2 Hfresh st. unfold st. clear st.
  assert (H : ids_ok (initialState loaded)) by (split; assumption).
  revert Hfresh H. generalize (initialState loaded). clear H1 H2.
  induction intents as [|i r IH]; intros s Hfresh Hs; simpl; [exact Hs|].
  destruct Hfresh as [Hi Hr]. apply IH; [exact Hr|].
  now apply ids_ok_dispatch.
Qed.

Lemma ids_stay_distinct_witness :
  NoDup (map id [noteX; noteY]) /\
  Forall (fun i => i <> []) (map id [noteX; noteY]) /\
  fresh_ids lower_ascii (initialState [noteX; noteY])
    [NewNote (u "k1") (u "0.abcdefgh") 1 1; EditTitle (u "t") 2;
     DeleteNote true; SelectItem 0] /\
  NoDup (map id (notes (fold_left (dispatch lower_ascii)
           [NewNote (u "k1") (u "0.abcdefgh") 1 1; EditTitle (u "t") 2;
            DeleteNote true; SelectItem 0]
           (initialState [noteX; noteY])))) /\
  Forall (fun i => i <> [])
    (map id (notes (fold_left (dispatch lower_ascii)
           [NewNote (u "k1") (u "0.abcdefgh") 1 1; EditTitle (u "t") 2;
            DeleteNote true; SelectItem 0]
           (initialState [noteX; noteY])))).
Proof.
  assert (H1 : NoDup (map id [noteX; noteY])).
  { repeat constructor; simpl; intuition discriminate. }
  assert (H2 : Forall (fun i => i <> []) (map id [noteX; noteY])).
  { repeat constructor; discriminate. }
  assert (H3 : fresh_ids lower_ascii (initialState [noteX; noteY])
                 [NewNote (u "k1") (u "0.abcdefgh") 1 1; EditTitle (u "t") 2;
                  DeleteNote true; SelectItem 0]).
  { simpl. repeat split; try exact I. intuition discriminate. }
  split; [exact H1|]. split; [exact H2|]. split; [exact H3|].
  exact (ids_stay_distinct lower_ascii [noteX; noteY] _ H1 H2 H3).
Defined.

(** *** New note *)



(** *** Pin *)

(** X5. With an active note [a], [handleTogglePin] leaves the active id
    as it is and makes the active note a copy of [a] with [pinned]
    negated and [updatedAt] the clock reading; the notes with another id
    stay as they are; doing it twice gives back the [pinned] of [a]. *)
Theorem handleTogglePin_flips :
  forall (now now' : Z) (st : State) (a : Note),
    activeNote st = Some a ->
    let st' := handleTogglePin now st in
    activeId st' = activeId st /\
    activeNote st' =
      Some (mkNote (id a) (title a) (content a) (createdAt a) now
              (negb (pinned a)) (color a)) /\
    (forall j m, nth_error (notes st) j = Some m -> id m <> id a ->
                 nth_error (notes st') j = Some m) /\
    activeNote (handleTogglePin now' st') =
      Some (mkNote (id a) (title a) (content a) (createdAt a) now'
              (pinned a) (color a)).
Proof.
  intros now now' st a Ha st'.
  assert (E : st' = mkState
                (updateNote (spread a (mkPatch None None None None None
                                         (Some (negb (pinned a))) None))
                   now (notes st))
                (activeId st) (search st)).
  { unfold st', handleTogglePin. now rewrite Ha. }
  assert (Ha' : activeNote st' =
                Some (mkNote (id a) (title a) (content a) (createdAt a) now
                        (negb (pinned a)) (color a))).
  { rewrite E.
    exact (activeNote_updateNote st a
             (spread a (mkPatch None None None None None
                          (Some (negb (pinned a))) None)) now Ha eq_refl). }
  split; [now rewrite E|]. split; [exact Ha'|]. split.
  - intros j m Hm Hne. rewrite E. simpl.
    rewrite (updateNote_nth _ _ _ _ _ Hm). simpl.
    apply str_eqb_neq in Hne. now rewrite Hne.
  - unfold handleTogglePin at 1. rewrite Ha'.
    match goal with
    | |- activeNote (mkState (updateNote ?next _ _) _ _) = _ =>
        rewrite (activeNote_updateNote st' _ next now' Ha' eq_refl)
    end.
    unfold stamp, spread. simpl. now rewrite negb_involutive.
Qed.

Lemma handleTogglePin_flips_witness :
  activeNote stXYZ = Some noteX /\
  activeNote (handleTogglePin 20 stXYZ) =
    Some (mkNote (u "x") (u "X") [] 0 20 true None) /\
  activeNote (handleTogglePin 30 (handleTogglePin 20 stXYZ)) =
    Some (mkNote (u "x") (u "X") [] 0 30 false None).
Proof.
  split; [reflexivity|].
  destruct (handleTogglePin_flips 20 30 stXYZ noteX eq_refl) as (_ & H1 & _ & H2).
  split; [exact H1|exact H2].
Defined.

(** *** Delete *)

(** X6. Deleting the active note [a] leaves no note with the id of [a],
    keeps every note with another id, and leaves fewer notes than there
    were; when the user does not confirm, nothing changes. *)
Theorem handleDeleteNote_removes_id :
  forall (st : State),
    handleDeleteNote false st = st /\
    (forall a,
       activeNote st = Some a ->
       let st' := handleDeleteNote true st in
       ~ In (id a) (map id (notes st')) /\
       (forall m, id m <> id a -> (In m (notes st') <-> In m (notes st))) /\
       (length (notes st') < length (notes st))%nat /\
       search st' = search st).
Proof.
  intros st. split.
  - unfold handleDeleteNote. destruct (activeNote st); reflexivity.
  - intros a Ha st'.
    assert (E : notes st' =
                filter (fun n => negb (str_eqb (id n) (id a))) (notes st)).
    { unfold st', handleDeleteNote. now rewrite Ha. }
    split; [|split; [|split]].
    + rewrite E. intros Hin. apply in_map_iff in Hin as (m & Hm & Hin).
      apply filter_In in Hin as [_ Hin]. apply negb_true_iff in Hin.
      apply str_eqb_neq in Hin. contradiction.
    + intros m Hne. rewrite E, filter_In. apply str_eqb_neq in Hne.
      rewrite Hne. simpl. tauto.
    + rewrite E. destruct (activeNote_Some _ _ Ha) as (_ & l1 & l2 & -> & _).
      rewrite filter_app, !length_app. simpl. rewrite str_eqb_refl. simpl.
      pose proof (filter_length_le (fun n => negb (str_eqb (id n) (id a))) l1).
      pose proof (filter_length_le (fun n => negb (str_eqb (id n) (id a))) l2).
      lia.
    + unfold st', handleDeleteNote. now rewrite Ha.
Qed.

Lemma handleDeleteNote_removes_id_witness :
  activeNote stXYZ = Some noteX /\
  ~ In (id noteX) (map id (notes (handleDeleteNote true stXYZ))) /\
  (length (notes (handleDeleteNote true stXYZ)) < length (notes stXYZ))%nat.
Proof.
  split; [reflexivity|].
  destruct (proj2 (handleDeleteNote_removes_id stXYZ) noteX eq_refl)
    as (H1 & _ & H3 & _).
  split; [exact H1|exact H3].
Defined.

(** *** The editor *)

(** X7. With an active note [a], an edit of the title and then an edit
    of the content leave as active note a copy of [a] with both the new
    title and the new content, the same id, [createdAt], [pinned] and
    [color], and the clock reading of the second edit as [updatedAt]. *)
Theorem edits_compose :
  forall (st : State) (a : Note) (newTitle newContent : jsstring) (t1 t2 : Z),
    activeNote st = Some a ->
    activeNote (handleContent newContent t2 (handleTitle newTitle t1 st)) =
    Some (mkNote (id a) newTitle newContent (createdAt a) t2 (pinned a) (color a)).
Proof.
  intros st a v c t1 t2 Ha.
  assert (H1 : activeNote (handleTitle v t1 st) =
               Some (mkNote (id a) v (content a) (createdAt a) t1 (pinned a) (color a))).
  { unfold handleTitle. rewrite Ha.
    exact (activeNote_updateNote st a (spread a (patch_title v)) t1 Ha eq_refl). }
  unfold handleContent at 1. rewrite H1.
  match goal with
  | |- activeNote (mkState (updateNote ?next _ _) _ _) = _ =>
      exact (activeNote_updateNote _ _ next t2 H1 eq_refl)
  end.
Qed.

Lemma edits_compose_witness :
  activeNote stA = Some noteA /\
  activeNote (handleContent (u "body") 8 (handleTitle (u "head") 7 stA)) =
  Some (mkNote (u "a") (u "head") (u "body") 1 8 false None).
Proof.
  split; [reflexivity|].
  exact (edits_compose stA noteA (u "head") (u "body") 7 8 eq_refl).
Defined.

(** *** The initial state *)

(** X8. At the start there is no active note when nothing was loaded or
    when the first note loaded has an empty id; otherwise the first note
    loaded is the active note. *)
Theorem initialState_first_active :
  activeNote (initialState []) = None /\
  (forall n rest, id n = [] -> activeNote (initialState (n :: rest)) = None) /\
  (forall n rest, id n <> [] -> activeNote (initialState (n :: rest)) = Some n).
Proof.
  split; [reflexivity|]. split.
  - intros n rest E. unfold initialState, activeNote. simpl. now rewrite E.
  - intros n rest Hne.
    assert (Hor : or_null (Some (id n)) = Some (id n)).
    { destruct (id n); [contradiction|reflexivity]. }
    unfold initialState, activeNote. cbn [activeId notes hd_error option_map].
    rewrite Hor. cbn [find]. now rewrite str_eqb_refl.
Qed.

Lemma initialState_first_active_witness :
  id noteX <> [] /\
  activeNote (initialState [noteX; noteY]) = Some noteX.
Proof.
  assert (H : id noteX <> []) by discriminate.
  split; [exact H|].
  exact (proj2 (proj2 initialState_first_active) noteX [noteY] H).
Defined.

End StoreExtras.

(** ** Strings: [trim] *)

Lemma drop_ws_split (s : jsstring) :
  exists pre, s = pre ++ drop_ws s /\ all_ws pre.
Proof.
  induction s as [|c s (pre & E & Hpre)]; simpl.
  - exists []. split; [reflexivity|constructor].
  - destruct (is_ws c) eqn:Ec.
    + exists (c :: pre). split; [simpl; now rewrite <- E|now constructor].
    + exists []. split; [reflexivity|constructor].
Qed.

Lemma drop_ws_head (s : jsstring) (c : N) (r : jsstring) :
  drop_ws s = c :: r -> is_ws c = false.
Proof.
  induction s as [|x s IH]; simpl; [discriminate|].
  destruct (is_ws x) eqn:Ex; [exact IH|]. intros H. injection H as <- _. exact Ex.
Qed.

Lemma drop_ws_nil (s : jsstring) : drop_ws s = [] <-> all_ws s.
Proof.
  induction s as [|x s IH]; simpl.
  - split; [constructor|reflexivity].
  - destruct (is_ws x) eqn:Ex.
    + rewrite IH. split; intros H; [now constructor|now inversion H].
    + split; [discriminate|]. intros H. inversion H; congruence.
Qed.

Lemma all_ws_rev (s : jsstring) : all_ws (rev s) <-> all_ws s.
Proof.
  unfold all_ws. rewrite !Forall_forall. split; intros H x Hx; apply H.
  - now apply in_rev in Hx.
  - now apply in_rev.
Qed.

(** [trim] takes white space, and nothing else, from the two ends. *)
Lemma trim_split (s : jsstring) :
  exists pre post, s = pre ++ trim s ++ post /\ all_ws pre /\ all_ws post.
Proof.
  destruct (drop_ws_split s) as (pre & E & Hpre).
  destruct (drop_ws_split (rev (drop_ws s))) as (q & Eq & Hq).
  exists pre, (rev q). split; [|split; [exact Hpre|now apply all_ws_rev]].
  unfold trim. rewrite <- rev_app_distr, <- Eq, rev_involutive. exact E.
Qed.

Lemma trim_nil (s : jsstring) : trim s = [] <-> all_ws s.
Proof.
  unfold trim. split.
  - intros H. apply (f_equal (@rev N)) in H. rewrite rev_involutive in H.
    simpl in H. apply drop_ws_nil in H. apply (proj1 (all_ws_rev _)) in H.
    destruct (drop_ws s) as [|c r] eqn:E; [now apply drop_ws_nil|].
    apply drop_ws_head in E. inversion H; congruence.
  - intros H. apply drop_ws_nil in H. now rewrite H.
Qed.

Lemma trim_last (s r : jsstring) (c : N) :
  trim s = r ++ [c] -> is_ws c = false.
Proof.
  unfold trim. intros H. apply (f_equal (@rev N)) in H.
  rewrite rev_involutive, rev_app_distr in H. simpl in H.
  now apply drop_ws_head in H.
Qed.

Lemma trim_first (s r : jsstring) (c : N) :
  trim s = c :: r -> is_ws c = false.
Proof.
  intros H. destruct (drop_ws_split (rev (drop_ws s))) as (q & Eq & Hq).
  assert (E : drop_ws s = trim s ++ rev q).
  { unfold trim. rewrite <- rev_app_distr, <- Eq. now rewrite rev_involutive. }
  rewrite H in E. simpl in E. now apply drop_ws_head in E.
Qed.

(** ** The sidebar and the keys *)

Module SidebarExtras.
Import Store StoreFacts.

Local Open Scope Z_scope.

(** X9. The title that the sidebar shows for a note is "Untitled" when
    the title of the note is empty or white space only; otherwise it is
    the title of the note without the white space at its two ends. In
    both cases it is not empty and neither begins nor ends with white
    space. *)
Theorem item_title_shape :
  forall (n : Note),
    (all_ws (title n) -> item_title n = u "Untitled") /\
    (~ all_ws (title n) ->
     exists pre post,
       title n = pre ++ item_title n ++ post /\ all_ws pre /\ all_ws post) /\
    (exists c r, item_title n = c :: r /\ is_ws c = false) /\
    (exists r c, item_title n = r ++ [c] /\ is_ws c = false).
Proof.
  intros n. unfold item_title.
  destruct (trim (title n)) as [|c r] eqn:E; cbn [is_empty].
  - apply trim_nil in E. split; [reflexivity|]. split; [contradiction|]. split.
    + exists 85%N, (u "ntitled"). split; reflexivity.
    + exists (u "Untitle"), 100%N. split; reflexivity.
  - split; [|split; [|split]].
    + intros H. apply trim_nil in H. congruence.
    + intros _. rewrite <- E. apply trim_split.
    + exists c, r. split; [reflexivity|]. now apply (trim_first (title n) r).
    + destruct (exists_last (l := c :: r)) as (r' & c' & E'); [discriminate|].
      exists r', c'. split; [exact E'|].
      apply (trim_last (title n) r'). now rewrite E.
Qed.

Lemma item_title_shape_witness :
  all_ws (title (mkNote (u "i") (u "  ") [] 0 0 false None)) /\
  ~ all_ws (title (mkNote (u "i") (u " my note ") [] 0 0 false None)) /\
  item_title (mkNote (u "i") (u "  ") [] 0 0 false None) = u "Untitled" /\
  exists pre post,
    u " my note " =
      pre ++ item_title (mkNote (u "i") (u " my note ") [] 0 0 false None) ++ post /\
    all_ws pre /\ all_ws post.
Proof.
  assert (H1 : all_ws (title (mkNote (u "i") (u "  ") [] 0 0 false None))).
  { repeat constructor. }
  assert (H2 : ~ all_ws (title (mkNote (u "i") (u " my note ") [] 0 0 false None))).
  { intros H. inversion H as [|? ? _ H']; subst. inversion H'; discriminate. }
  split; [exact H1|]. split; [exact H2|]. split.
  - exact (proj1 (item_title_shape _) H1).
  - exact (proj1 (proj2 (item_title_shape _)) H2).
Defined.

Lemma sort_head_newest (l : list Note) (x : Note) :
  In x l ->
  (forall m, In m l -> m = x \/ updatedAt m < updatedAt x) ->
  exists r, sort_by sortByUpdated l = x :: r.
Proof.
  intros Hx Hmax.
  destruct (sort_by sortByUpdated l) as [|h r] eqn:E.
  - exfalso. apply (Permutation_in _ (sort_by_perm _ sortByUpdated l)) in Hx.
    rewrite E in Hx. destruct Hx.
  - destruct (sort_by_head _ _ sortByUpdated_trans sortByUpdated_total _ _ _ E)
      as (l1 & l2 & -> & H1 & H2).
    assert (Hh : h = x \/ updatedAt h < updatedAt x).
    { apply Hmax. apply in_or_app. right. now left. }
    destruct Hh as [->|Hlt]; [now exists r|]. exfalso.
    apply in_app_or in Hx as [Hx|[Hx|Hx]].
    + apply (H1 x Hx). apply sortByUpdated_le. lia.
    + subst. lia.
    + specialize (H2 x Hx). apply sortByUpdated_le in H2. lia.
Qed.

(** X10. When a note is updated at a clock reading later than the
    [updatedAt] of every note, the sidebar (without a search) lists the
    updated note first if it is pinned, and otherwise right after the
    pinned notes: no note of its own group comes before it. *)
Theorem updated_note_listed_first :
  forall (prev : list Note) (i : nat) (n : Note) (p : Patch) (now : Z),
    nth_error prev i = Some n ->
    p_id p = None ->
    Forall (fun m => updatedAt m < now) prev ->
    exists ps us,
      Sidebar_sorted (updateNote (spread n p) now prev) =
        ps ++ stamp (spread n p) now :: us /\
      Forall (fun m => pinned m = true /\
                       pinned (stamp (spread n p) now) = false) ps.
Proof.
  intros prev i n p now Hn Hp Hclock.
  set (next := spread n p). set (n' := stamp next now).
  set (new := updateNote next now prev).
  assert (Hid : id n = id next) by (unfold next; simpl; now rewrite Hp).
  assert (Hin : In n' new).
  { apply (nth_error_In _ i). unfold new.
    rewrite (updateNote_nth _ _ _ _ _ Hn). now rewrite Hid, str_eqb_refl. }
  assert (Hmax : forall m, In m new -> m = n' \/ updatedAt m < updatedAt n').
  { intros m Hm. unfold new, updateNote in Hm.
    apply in_map_iff in Hm as (x & Ex & Hx).
    destruct (str_eqb (id x) (id next)); [left; now symmetry|].
    right. subst m. rewrite Forall_forall in Hclock. now apply Hclock. }
  unfold Sidebar_sorted. fold new.
  destruct (pinned n') eqn:Epin.
  - destruct (sort_head_newest (filter (fun m => pinned m) new) n') as [r Er].
    + apply filter_In. auto.
    + intros m Hm. apply filter_In in Hm as [Hm _]. now apply Hmax.
    + rewrite Er. exists [], (r ++ sort_by sortByUpdated
                                     (filter (fun m => negb (pinned m)) new)).
      split; [reflexivity|constructor].
  - destruct (sort_head_newest (filter (fun m => negb (pinned m)) new) n')
      as [r Er].
    + apply filter_In. now rewrite Epin.
    + intros m Hm. apply filter_In in Hm as [Hm _]. now apply Hmax.
    + rewrite Er. exists (sort_by sortByUpdated (filter (fun m => pinned m) new)), r.
      split; [reflexivity|].
      apply Forall_sort_by, Forall_forall. intros m Hm.
      apply filter_In in Hm as [_ Hm]. auto.
Qed.

Lemma updated_note_listed_first_witness :
  nth_error (notes stXYZ) 0 = Some noteX /\
  Forall (fun m => updatedAt m < 10) (notes stXYZ) /\
  exists ps us,
    Sidebar_sorted (updateNote (spread noteX (patch_title (u "new"))) 10
                      (notes stXYZ)) =
      ps ++ stamp (spread noteX (patch_title (u "new"))) 10 :: us /\
    Forall (fun m => pinned m = true /\
                     pinned (stamp (spread noteX (patch_title (u "new"))) 10)
                     = false) ps.
Proof.
  assert (H : Forall (fun m => updatedAt m < 10) (notes stXYZ)).
  { repeat constructor; simpl; lia. }
  split; [reflexivity|]. split; [exact H|].
  exact (updated_note_listed_first (notes stXYZ) 0 noteX (patch_title (u "new")) 10
           eq_refl eq_refl H).
Defined.

(** X11. A key event makes the handler call at most one of save, new
    note and delete (the lower-case form of "Delete" not being "n"):
    save only with Ctrl or Meta held, new note and delete only with
    neither. *)
Theorem handler_one_command :
  forall (toLowerCase : jsstring -> jsstring) (e : KeyEvent),
    toLowerCase (u "Delete") <> u "n" ->
    (length (handler toLowerCase e) <= 1)%nat /\
    (In Save (handler toLowerCase e) -> ctrlKey e || metaKey e = true) /\
    (In New (handler toLowerCase e) \/ In Delete (handler toLowerCase e) ->
     ctrlKey e || metaKey e = false).
Proof.
  intros lower [c m k] Hlower. unfold handler. simpl.
  destruct (str_eqb k (u "Delete")) eqn:Ed.
  - apply str_eqb_eq in Ed. subst k.
    assert (En : str_eqb (lower (u "Delete")) (u "n") = false)
      by now apply str_eqb_neq.
    rewrite En.
    destruct c, m, (str_eqb (lower (u "Delete")) (u "s")); simpl;
      repeat split; try lia; intuition discriminate.
  - destruct c, m, (str_eqb (lower k) (u "s")), (str_eqb (lower k) (u "n"));
      simpl; repeat split; try lia; intuition discriminate.
Qed.

Lemma handler_one_command_witness :
  lower_ascii (u "Delete") <> u "n" /\
  handler lower_ascii (mkKeyEvent true false (u "S")) = [Save] /\
  handler lower_ascii (mkKeyEvent false false (u "N")) = [New] /\
  handler lower_ascii (mkKeyEvent false false (u "Delete")) = [Delete] /\
  (length (handler lower_ascii (mkKeyEvent true false (u "n"))) <= 1)%nat.
Proof.
  assert (H : lower_ascii (u "Delete") <> u "n") by discriminate.
  split; [exact H|]. repeat (split; [reflexivity|]).
  exact (proj1 (handler_one_command lower_ascii
                  (mkKeyEvent true false (u "n")) H)).
Defined.

End SidebarExtras.

(** ** The persistence gateway: saving *)

Module StorageExtras.
Import Storage.

(** X12. [saveNotes] never throws. Either the storage takes the text of
    the notes, and the slot holds exactly that text afterwards; or
    [JSON.stringify] throws, the storage cannot be reached or it refuses
    the text, and the slot is as it was. *)
Theorem saveNotes_never_throws :
  forall (A : Type) (JSON_stringify : A -> result jsstring)
         (accepts : jsstring -> bool) (notes : A) (s : Slot),
    exists s',
      saveNotes JSON_stringify accepts notes s = Ok s' /\
      ((exists text,
          JSON_stringify notes = Ok text /\ accepts text = true /\
          s <> Unavailable /\ s' = Present text) \/
       (s' = s /\
        (JSON_stringify notes = Throw \/ s = Unavailable \/
         exists text, JSON_stringify notes = Ok text /\ accepts text = false))).
Proof.
  intros A stringify accepts notes s. unfold saveNotes, bind, try_catch.
  destruct (stringify notes) as [text|] eqn:E.
  - destruct s as [| |raw]; simpl.
    + exists Unavailable. split; [reflexivity|]. right. auto.
    + destruct (accepts text) eqn:Ea.
      * exists (Present text). split; [reflexivity|]. left. exists text.
        repeat split; auto. discriminate.
      * exists Absent. split; [reflexivity|]. right. split; [reflexivity|].
        right. right. now exists text.
    + destruct (accepts text) eqn:Ea.
      * exists (Present text). split; [reflexivity|]. left. exists text.
        repeat split; auto. discriminate.
      * exists (Present raw). split; [reflexivity|]. right. split; [reflexivity|].
        right. right. now exists text.
  - exists s. split; [reflexivity|]. right. auto.
Qed.

(** X13. When [JSON.parse] reads back the array that [JSON.stringify]
    wrote, and the storage takes the text, loading after saving gives
    the notes saved, whatever the slot held before. *)
Theorem save_then_load :
  forall (JSON_parse : jsstring -> result JSValue)
         (JSON_stringify : list JSValue -> result jsstring)
         (accepts : jsstring -> bool)
         (items : list JSValue) (text : jsstring) (s : Slot),
    s <> Unavailable ->
    JSON_stringify items = Ok text ->
    text <> [] ->
    accepts text = true ->
    JSON_parse text = Ok (JArr items) ->
    exists s',
      saveNotes JSON_stringify accepts items s = Ok s' /\
      loadNotes JSON_parse s' = Ok items.
Proof.
  intros parse stringify accepts items text s Hs Hstr Hne Hacc Hparse.
  exists (Present text). split.
  - unfold saveNotes, bind, try_catch. rewrite Hstr.
    destruct s; simpl; [contradiction| |]; now rewrite Hacc.
  - unfold loadNotes, loadNotes_try, bind, try_catch.
    destruct text as [|c text]; [contradiction|]. simpl. now rewrite Hparse.
Qed.

Lemma save_then_load_witness :
  Present (u "old") <> Unavailable /\
  Json.stringify [JObj [(u "id", JStr (u "a")); (u "pinned", JBool true)];
                  JNum 12 0] <> Throw /\
  exists s',
    saveNotes Json.stringify (fun _ => true)
      [JObj [(u "id", JStr (u "a")); (u "pinned", JBool true)]; JNum 12 0]
      (Present (u "old")) = Ok s' /\
    loadNotes Json.parse s' =
      Ok [JObj [(u "id", JStr (u "a")); (u "pinned", JBool true)]; JNum 12 0].
Proof.
  split; [discriminate|]. split; [discriminate|].
  apply (save_then_load Json.parse Json.stringify (fun _ => true) _
           (Json.print_value
              (JArr [JObj [(u "id", JStr (u "a")); (u "pinned", JBool true)];
                     JNum 12 0]))
           (Present (u "old")));
    [discriminate|reflexivity|discriminate|reflexivity|reflexivity].
Defined.

(** A storage that takes nothing: the notes saved before are loaded. *)
Example save_refused :
  saveNotes Json.stringify (fun _ => false) [JNull] (Present (u "[1]")) =
    Ok (Present (u "[1]")) /\
  saveNotes Json.stringify (fun _ => true) [JNull] Unavailable = Ok Unavailable.
Proof. split; reflexivity. Qed.

End StorageExtras.

(** ** The debounced callback: any sequence of calls *)

Module DebounceExtras.
Import Debounce DebounceFacts.

Local Open Scope Z_scope.

Section More.
Variable A : Type.
Variable delay : Z.

Lemma single_advance (T : Z) (w : World A) : single w -> single (advance T w).
Proof.
  intros [H|(t & H & Hr)]; unfold single, advance; simpl; rewrite H; simpl.
  - now left.
  - destruct (due t <=? T); simpl; [now left|right; now exists t].
Qed.

Lemma single_clear (w : World A) :
  single w ->
  pending (match timeoutRef w with
           | Some i => clearTimeout (Some i) w
           | None => w
           end) = [] \/
  (timeoutRef w = None /\ exists t, pending w = [t]).
Proof.
  intros [H|(t & H & Hr)].
  - left. destruct (timeoutRef w); simpl; now rewrite H.
  - left. rewrite Hr. simpl. rewrite H. simpl. now rewrite Pos.eqb_refl.
Qed.

(** After a call of the debounced function exactly the new timer is
    pending. *)
Lemma debounced_pending (a : A) (w : World A) :
  single w ->
  pending (debounced delay a w) =
    [mkTimer (next_id w) (clock w + Z.max 0 delay) a] /\
  timeoutRef (debounced delay a w) = Some (next_id w) /\
  calls (debounced delay a w) = calls w /\
  clock (debounced delay a w) = clock w.
Proof.
  intros Hs. unfold debounced.
  destruct Hs as [H|(t & H & Hr)].
  - destruct (timeoutRef w) as [i|]; simpl; rewrite H; simpl; auto.
  - rewrite Hr. simpl. rewrite H. simpl. rewrite Pos.eqb_refl. simpl. auto.
Qed.

Lemma single_owned (w : World A) : single w -> owned w.
Proof.
  intros [H|(t & H & Hr)] x Hx; rewrite H in Hx.
  - destruct Hx.
  - destruct Hx as [<-|[]]. exact Hr.
Qed.

Lemma single_step (w : World A) (e : event A) : single w -> single (step delay w e).
Proof.
  intros H. destruct e as [t a|t|t]; simpl.
  - destruct (debounced_pending a (advance t w) (single_advance t w H))
      as (Hp & Hr & _).
    right. eexists. split; [exact Hp|exact Hr].
  - left. apply single_advance with (T := t) in H.
    apply unmount_cancels. now apply single_owned.
  - now apply single_advance.
Qed.

Lemma single_run (es : list (event A)) (w : World A) :
  single w -> single (run delay es w).
Proof.
  revert w. induction es as [|e es IH]; intros w H; simpl; [exact H|].
  apply IH. now apply single_step.
Qed.

Lemma single_init (t0 : Z) : single (init A t0).
Proof. now left. Qed.

Lemma accounted_advance (T : Z) (w : World A) (seen : list A) :
  single w -> accounted w seen -> accounted (advance T w) seen.
Proof.
  intros [H|(t & H & Hr)] [H1 H2]; unfold accounted, advance in *; simpl;
    rewrite H in *; simpl in *.
  - rewrite ?app_nil_r in *. auto.
  - destruct (due t <=? T); simpl; rewrite ?app_nil_r, ?length_app; simpl.
    + split; [exact H1|lia].
    + split; [exact H1|lia].
Qed.

Lemma accounted_step (w : World A) (e : event A) (seen : list A) :
  single w -> accounted w seen ->
  accounted (step delay w e) (seen ++ scheduled [e]).
Proof.
  intros Hs Hacc. destruct e as [t a|t|t]; simpl.
  - pose proof (single_advance t w Hs) as Hs'.
    pose proof (accounted_advance t w seen Hs Hacc) as [H1 H2].
    destruct (debounced_pending a (advance t w) Hs') as (Hp & _ & Hc & _).
    unfold accounted. rewrite Hp, Hc. cbn [map args scheduled length app]. split.
    + intros x Hx. apply in_app_or in Hx as [Hx|[<-|[]]].
      * apply in_or_app. left. apply H1. apply in_or_app. now left.
      * apply in_or_app. right. now left.
    + rewrite length_app. cbn [length]. lia.
  - rewrite app_nil_r.
    pose proof (single_advance t w Hs) as Hs'.
    pose proof (accounted_advance t w seen Hs Hacc) as [H1 H2].
    unfold accounted, unmount.
    assert (E : calls (clearTimeout (timeoutRef (advance t w)) (advance t w))
                = calls (advance t w)).
    { destruct (timeoutRef (advance t w)); reflexivity. }
    assert (Hsub : incl (pending (clearTimeout (timeoutRef (advance t w))
                                    (advance t w)))
                        (pending (advance t w))).
    { destruct (timeoutRef (advance t w)); simpl; [|apply incl_refl].
      intros x Hx. now apply filter_In in Hx. }
    assert (Hlen : (length (pending (clearTimeout (timeoutRef (advance t w))
                                       (advance t w)))
                    <= length (pending (advance t w)))%nat).
    { destruct (timeoutRef (advance t w)); simpl; [apply filter_length_le|lia]. }
    rewrite E. split; [|lia].
    intros x Hx. apply H1. apply in_app_or in Hx as [Hx|Hx];
      apply in_or_app; [now left|right].
    apply in_map_iff in Hx as (y & <- & Hy). apply in_map. now apply Hsub.
  - rewrite app_nil_r. now apply accounted_advance.
Qed.

Lemma scheduled_app (es es' : list (event A)) :
  scheduled (es ++ es') = scheduled es ++ scheduled es'.
Proof.
  induction es as [|e es IH]; [reflexivity|].
  destruct e; simpl; now rewrite IH.
Qed.

Lemma accounted_run (es : list (event A)) (w : World A) (seen : list A) :
  single w -> accounted w seen ->
  accounted (run delay es w) (seen ++ scheduled es).
Proof.
  revert w seen. induction es as [|e es IH]; intros w seen Hs Hacc.
  - simpl. now rewrite app_nil_r.
  - change (e :: es) with ([e] ++ es). rewrite scheduled_app, app_assoc.
    simpl. apply IH; [now apply single_step|now apply accounted_step].
Qed.

End More.

(** X14. Whatever the calls of the debounced function, the waits and
    the cleanups, at most one timer is pending at any time. *)
Theorem at_most_one_timer :
  forall (A : Type) (delay t0 : Z) (es : list (event A)),
    (length (pending (run delay es (init A t0))) <= 1)%nat.
Proof.
  intros A delay t0 es.
  destruct (single_run A delay es _ (single_init A t0)) as [H|(t & H & _)];
    rewrite H; simpl; lia.
Qed.

(** X15. The callback is only called on arguments on which the
    debounced function was called, and not more often than that
    function was called. *)
Theorem calls_were_scheduled :
  forall (A : Type) (delay t0 : Z) (es : list (event A)),
    incl (calls (run delay es (init A t0))) (scheduled es) /\
    (length (calls (run delay es (init A t0))) <= length (scheduled es))%nat.
Proof.
  intros A delay t0 es.
  assert (H0 : accounted (init A t0) []).
  { split; simpl; [intros x []|lia]. }
  destruct (accounted_run A delay es _ [] (single_init A t0) H0) as [H1 H2].
  simpl in H1, H2. split; [|lia].
  intros x Hx. apply H1. apply in_or_app. now left.
Qed.

(** X16. After a call of the debounced function at time [t], whatever
    happened before, the callback is not called before [t + delay]; and
    once the delay has passed on the clock of the host it is called on
    the argument of that call, and on nothing else. *)
Theorem quiet_period_then_call :
  forall (A : Type) (delay t0 : Z) (es : list (event A)) (t : Z) (a : A),
    let w1 := run delay (es ++ [Schedule t a]) (init A t0) in
    (forall T, T < t + delay ->
       calls (run delay (es ++ [Schedule t a; Wait T]) (init A t0)) = calls w1) /\
    (forall T, clock w1 + Z.max 0 delay <= T ->
       calls (run delay (es ++ [Schedule t a; Wait T]) (init A t0)) =
       calls w1 ++ [a]).
Proof.
  intros A delay t0 es t a w1.
  set (w := run delay es (init A t0)).
  assert (Hs : single (advance t w)).
  { apply single_advance. apply single_run, single_init. }
  destruct (debounced_pending A delay a (advance t w) Hs) as (Hp & _ & _ & Hc).
  assert (E1 : w1 = debounced delay a (advance t w)).
  { unfold w1, run. rewrite fold_left_app. reflexivity. }
  assert (E2 : forall T, run delay (es ++ [Schedule t a; Wait T]) (init A t0)
                         = advance T w1).
  { intros T. unfold w1, run. rewrite !fold_left_app. reflexivity. }
  rewrite <- E1 in Hp, Hc.
  assert (Hclock : t <= clock w1).
  { rewrite Hc. unfold advance. simpl. lia. }
  split; intros T HT; rewrite E2.
  - rewrite (advance_early A T w1 _ _ a Hp); [reflexivity|]. lia.
  - rewrite (advance_due A T w1 _ _ a Hp); [reflexivity|]. rewrite Hc in HT. lia.
Qed.

Lemma quiet_period_then_call_witness :
  calls (run 300 ([Schedule 0 1%nat; Wait 500; Schedule 600 2%nat]
                  ++ [Schedule 700 3%nat; Wait 999]) (init nat 0)) = [1%nat] /\
  calls (run 300 ([Schedule 0 1%nat; Wait 500; Schedule 600 2%nat]
                  ++ [Schedule 700 3%nat; Wait 1000]) (init nat 0)) = [1%nat; 3%nat].
Proof.
  destruct (quiet_period_then_call nat 300 0
              [Schedule 0 1%nat; Wait 500; Schedule 600 2%nat] 700 3%nat)
    as [H1 H2].
  split.
  - rewrite (H1 999); [reflexivity|lia].
  - rewrite (H2 1000); [reflexivity|simpl; lia].
Defined.

Section Spaced.
Variable A : Type.
Variable delay : Z.

Lemma spaced_armed (cs : list (Z * A)) (w : World A) (t : Z) (a : A) :
  0 < delay ->
  clock w = t -> armed w (t + delay) a -> spaced delay t cs ->
  clock (run delay (map (@schedule_of A) cs) w) = fst (last cs (t, a)) /\
  armed (run delay (map (@schedule_of A) cs) w)
    (fst (last cs (t, a)) + delay) (snd (last cs (t, a))) /\
  calls (run delay (map (@schedule_of A) cs) w) ++ [snd (last cs (t, a))] =
    calls w ++ a :: map snd cs.
Proof.
  intros Hd. revert w t a.
  induction cs as [|[t' a'] cs IH]; intros w t a Hc Harmed Hspaced.
  - simpl. auto.
  - simpl in Hspaced. destruct Hspaced as (Hle & Hrest).
    destruct Harmed as (h & Hp & Hr).
    set (w0 := advance t' w).
    assert (E0 : w0 = mkWorld t' (next_id w) [] (timeoutRef w) (calls w ++ [a])).
    { unfold w0. rewrite (advance_due A t' w h (t + delay) a Hp Hle).
      rewrite Hc. now rewrite Z.max_r by lia. }
    set (w1 := step delay w (schedule_of (t', a'))).
    assert (Hs0 : single w0) by (left; now rewrite E0).
    assert (Ek : clock w0 = t') by now rewrite E0.
    assert (Ec : calls w0 = calls w ++ [a]) by now rewrite E0.
    assert (Ew1 : w1 = debounced delay a' w0) by reflexivity.
    destruct (debounced_pending A delay a' w0 Hs0) as (Hp1 & Hr1 & Hc1 & Hk1).
    rewrite <- Ew1 in Hp1, Hr1, Hc1, Hk1.
    rewrite Ek in Hp1, Hk1. rewrite Ec in Hc1.
    rewrite Z.max_r in Hp1 by lia.
    assert (Ha1 : armed w1 (t' + delay) a').
    { eexists. split; [exact Hp1|exact Hr1]. }
    destruct (IH w1 t' a' Hk1 Ha1 Hrest) as (H1 & H2 & H3).
    change (run delay (map (@schedule_of A) ((t', a') :: cs)) w)
      with (run delay (map (@schedule_of A) cs) w1).
    rewrite last_cons. split; [exact H1|]. split; [exact H2|].
    rewrite H3, Hc1. cbn [map snd]. now rewrite <- app_assoc.
Qed.

End Spaced.

(** X17. Calls of the debounced function that are each at least the
    quiet period after the one before all reach the callback, once
    each and in order. *)
Theorem spaced_calls_all_saved :
  forall (A : Type) (delay t0 t1 : Z) (a1 : A) (cs : list (Z * A)) (T : Z),
    0 < delay ->
    t0 <= t1 ->
    spaced delay t1 cs ->
    fst (last cs (t1, a1)) + delay <= T ->
    calls (run delay (map (@schedule_of A) ((t1, a1) :: cs) ++ [Wait T])
             (init A t0))
    = map snd ((t1, a1) :: cs).
Proof.
  intros A delay t0 t1 a1 cs T Hd H01 Hspaced HT.
  set (w1 := step delay (init A t0) (schedule_of (t1, a1))).
  assert (E1 : w1 = mkWorld t1 2%positive [mkTimer 1%positive (t1 + delay) a1]
                      (Some 1%positive) []).
  { unfold w1, schedule_of, step. simpl fst. simpl snd.
    rewrite advance_idle by reflexivity.
    rewrite debounced_first by (assumption || reflexivity).
    simpl. now rewrite Z.max_r by lia. }
  assert (Hc1 : clock w1 = t1) by now rewrite E1.
  assert (Ha1 : armed w1 (t1 + delay) a1).
  { rewrite E1. exists 1%positive. auto. }
  destruct (spaced_armed A delay cs w1 t1 a1 Hd Hc1 Ha1 Hspaced)
    as (_ & (h & Hp & _) & Hcalls).
  assert (E : run delay (map (@schedule_of A) ((t1, a1) :: cs) ++ [Wait T])
                (init A t0)
              = advance T (run delay (map (@schedule_of A) cs) w1)).
  { unfold run. rewrite fold_left_app. reflexivity. }
  rewrite E, (advance_due A T _ h _ _ Hp HT). cbn [calls].
  rewrite Hcalls, E1. reflexivity.
Qed.

Lemma spaced_calls_all_saved_witness :
  0 < 300 /\ 0 <= 10 /\
  spaced 300 10 [(310, 2%nat); (700, 3%nat)] /\
  calls (run 300 (map (@schedule_of nat) [(10, 1%nat); (310, 2%nat); (700, 3%nat)]
                    ++ [Wait 1000]) (init nat 0))
  = [1%nat; 2%nat; 3%nat].
Proof.
  assert (Hs : spaced 300 10 [(310, 2%nat); (700, 3%nat)]) by (simpl; lia).
  split; [lia|]. split; [lia|]. split; [exact Hs|].
  apply (spaced_calls_all_saved nat 300 0 10 1%nat
           [(310, 2%nat); (700, 3%nat)] 1000); [lia|lia|exact Hs|simpl; lia].
Defined.

End DebounceExtras.

(** ** The markdown renderer: lines *)

Module MarkdownExtras.
Import Markdown MarkdownFacts.

Local Open Scope N_scope.

(** *** Splitting and joining *)

Lemma split_lines_one_line (s : jsstring) : one_line s -> split_lines s = [s].
Proof.
  induction 1 as [|c s Hc _ IH]; [reflexivity|]. simpl.
  apply N.eqb_neq in Hc. now rewrite Hc, IH.
Qed.

Lemma split_lines_app (x r : jsstring) :
  one_line x -> split_lines (x ++ 10 :: r) = x :: split_lines r.
Proof.
  induction 1 as [|c x Hc _ IH]; [reflexivity|]. simpl.
  apply N.eqb_neq in Hc. now rewrite Hc, IH.
Qed.

Lemma split_lines_lines (s : jsstring) :
  split_lines s <> [] /\ Forall one_line (split_lines s).
Proof.
  induction s as [|c s [IH1 IH2]]; simpl.
  - split; [discriminate|]. repeat constructor.
  - destruct (N.eqb_spec c 10) as [->|Hc].
    + split; [discriminate|]. constructor; [constructor|exact IH2].
    + destruct (split_lines s) as [|h r]; [contradiction|].
      split; [discriminate|].
      inversion IH2; subst. constructor; [now constructor|assumption].
Qed.

Lemma split_lines_join (ls : list jsstring) :
  ls <> [] -> Forall one_line ls -> split_lines (join [10] ls) = ls.
Proof.
  intros Hne H. induction H as [|x ls Hx Hls IH]; [contradiction|].
  destruct ls as [|y ls].
  - simpl. now apply split_lines_one_line.
  - change (join [10] (x :: y :: ls)) with (x ++ 10 :: join [10] (y :: ls)).
    rewrite (split_lines_app _ _ Hx). f_equal. apply IH. discriminate.
Qed.

(** *** What a rendered line is made of *)

Section Chars.
Variable P : N -> Prop.

Lemma Forall_replace (open close pre post : jsstring) :
  Forall P pre -> Forall P post ->
  forall s, Forall P s -> Forall P (replace_delimited open close pre post s).
Proof.
  intros Hpre Hpost.
  assert (H : forall n s, (length s <= n)%nat -> Forall P s ->
                          Forall P (replace_delimited open close pre post s)).
  { induction n as [|n IH]; intros s Hlen Hs.
    - destruct s; [constructor|simpl in Hlen; lia].
    - destruct s as [|c t]; [constructor|].
      rewrite replace_delimited_cons.
      destruct (match_at open close (c :: t)) as [[g r]|] eqn:E.
      + apply match_at_app in E as [E Hg]. rewrite E in Hs, Hlen.
        apply Forall_app in Hs as [_ Hs]. apply Forall_app in Hs as [Hg' Hs].
        apply Forall_app in Hs as [_ Hr].
        rewrite !length_app in Hlen.
        assert (Hg1 : (1 <= length g)%nat).
        { destruct g; [contradiction|simpl; lia]. }
        repeat (apply Forall_app; split); try assumption.
        apply IH; [lia|exact Hr].
      + inversion Hs; subst. constructor; [assumption|].
        apply IH; [simpl in Hlen; lia|assumption]. }
  intros s. now apply (H (length s)).
Qed.

Lemma Forall_esc (s : jsstring) :
  Forall P (u "&amp;") -> Forall P (u "&lt;") -> Forall P (u "&gt;") ->
  Forall P s -> Forall P (esc s).
Proof.
  intros H1 H2 H3. induction 1 as [|c s Hc _ IH]; [constructor|].
  rewrite esc_cons. apply Forall_app. split; [|exact IH].
  unfold esc_char.
  destruct (c =? AMP); [exact H1|]. destruct (c =? LT); [exact H2|].
  destruct (c =? GT); [exact H3|]. now constructor.
Qed.

Lemma Forall_drop_ws (s : jsstring) : Forall P s -> Forall P (drop_ws s).
Proof.
  intros H. destruct (drop_ws_split s) as (pre & E & _).
  rewrite E in H. now apply Forall_app in H.
Qed.

Lemma Forall_strip_heading (hashes line : jsstring) :
  Forall P line -> Forall P (strip_heading hashes line).
Proof.
  intros H. unfold strip_heading, match_heading.
  destruct (strip_prefix hashes line) as [[|c t]|] eqn:E; try exact H.
  destruct (is_ws c); [|exact H].
  apply strip_prefix_app in E. rewrite E in H.
  apply Forall_app in H as [_ H]. inversion H; subst.
  now apply Forall_drop_ws.
Qed.

End Chars.

Ltac no_line_feed := repeat constructor; discriminate.

Lemma one_line_render_line (line : jsstring) :
  one_line line -> one_line (render_line line).
Proof.
  intros H. unfold one_line in *.
  assert (He : forall s, Forall (fun c => c <> 10) s ->
                         Forall (fun c => c <> 10) (esc s)).
  { intros s Hs. apply Forall_esc; try assumption; no_line_feed. }
  unfold render_line.
  destruct (test_heading (u "###") line).
  { repeat (apply Forall_app; split); try no_line_feed.
    now apply He, Forall_strip_heading. }
  destruct (test_heading (u "##") line).
  { repeat (apply Forall_app; split); try no_line_feed.
    now apply He, Forall_strip_heading. }
  destruct (test_heading (u "#") line).
  { repeat (apply Forall_app; split); try no_line_feed.
    now apply He, Forall_strip_heading. }
  destruct (length (trim (esc line)) =? 0)%nat; [no_line_feed|].
  repeat (apply Forall_app; split); try no_line_feed.
  unfold inline. repeat (apply Forall_replace; try no_line_feed).
  now apply He.
Qed.

(** X18. The renderer works line by line: the lines of its output are
    the renderings of the lines of the text, one for one and in order,
    so the output has as many lines as the text. *)
Theorem renderBasicMarkdown_line_by_line :
  forall text : jsstring,
    split_lines (renderBasicMarkdown text) = map render_line (split_lines text) /\
    length (split_lines (renderBasicMarkdown text)) = length (split_lines text).
Proof.
  intros text.
  assert (E : split_lines (renderBasicMarkdown text) =
              map render_line (split_lines text)).
  { unfold renderBasicMarkdown. destruct (split_lines_lines text) as [Hne Hl].
    apply split_lines_join.
    - destruct (split_lines text); [contradiction|discriminate].
    - apply Forall_forall. intros x Hx. apply in_map_iff in Hx as (l & <- & Hl').
      rewrite Forall_forall in Hl. now apply one_line_render_line, Hl. }
  split; [exact E|]. rewrite E. apply length_map.
Qed.

(** *** Blank lines *)

Lemma test_heading_hash (hashes line : jsstring) :
  test_heading (35 :: hashes) line = true -> exists r, line = 35 :: r.
Proof.
  unfold test_heading, match_heading.
  destruct line as [|c t]; [discriminate|]. cbn [strip_prefix].
  destruct (N.eqb_spec 35 c) as [<-|]; [|discriminate]. intros _. now exists t.
Qed.

Lemma test_heading_not_hash (hashes line : jsstring) :
  (forall r, line <> 35 :: r) -> test_heading (35 :: hashes) line = false.
Proof.
  intros H. destruct (test_heading (35 :: hashes) line) eqn:E; [|reflexivity].
  apply test_heading_hash in E as [r ->]. now destruct (H r).
Qed.

Lemma all_ws_plain (s : jsstring) : all_ws s -> Forall plain s.
Proof.
  intros H. eapply Forall_impl; [|exact H]. apply is_ws_plain.
Qed.

Lemma esc_plain (s : jsstring) : Forall plain s -> esc s = s.
Proof.
  induction 1 as [|c s Hc _ IH]; [reflexivity|].
  now rewrite esc_cons, (esc_char_plain c Hc), IH.
Qed.

Lemma all_ws_esc (s : jsstring) : all_ws (esc s) -> all_ws s.
Proof.
  induction s as [|c s IH]; [constructor|].
  rewrite esc_cons. intros H. apply Forall_app in H as [Hc Hs].
  constructor; [|now apply IH].
  destruct (esc_char_head c) as (d & r & Ed & [->|[-> _]]);
    rewrite Ed in Hc; inversion Hc; subst; [assumption|discriminate].
Qed.

(** X19. A line is rendered as the line break ["<br/>"] exactly when it
    is empty or made of white space only. *)
Theorem blank_line_is_break :
  forall line : jsstring,
    render_line line = u "<br/>" <-> all_ws line.
Proof.
  intros line. split.
  - unfold render_line.
    destruct (test_heading (u "###") line); [discriminate|].
    destruct (test_heading (u "##") line); [discriminate|].
    destruct (test_heading (u "#") line); [discriminate|].
    destruct (length (trim (esc line)) =? 0)%nat eqn:E; [|discriminate].
    intros _. apply Nat.eqb_eq in E. apply length_zero_iff_nil in E.
    now apply all_ws_esc, trim_nil.
  - intros H. unfold render_line.
    assert (Hh : forall r, line <> 35 :: r).
    { intros r ->. inversion H; discriminate. }
    change (u "###") with (35 :: u "##"). change (u "##") with (35 :: u "#").
    change (u "#") with (35 :: []).
    rewrite !(test_heading_not_hash _ _ Hh).
    rewrite (esc_plain _ (all_ws_plain _ H)).
    apply trim_nil in H. now rewrite H.
Qed.

(** *** Text without markup *)

Lemma inline_no_delim (l : jsstring) :
  Forall (fun c => ~ delim c) l -> inline l = l.
Proof.
  intros H. unfold inline.
  assert (Hs : Forall (fun x => x <> STAR) l).
  { eapply Forall_impl; [|exact H]. intros c Hc ->. apply Hc. now left. }
  assert (Hb : Forall (fun x => x <> BACKTICK) l).
  { eapply Forall_impl; [|exact H]. intros c Hc ->. apply Hc. now right. }
  rewrite <- (app_nil_r l) at 1.
  rewrite (replace_delimited_copy STAR [STAR] _ _ _ l [] Hs).
  change (replace_delimited [STAR; STAR] [STAR; STAR] (u "<strong>")
            (u "</strong>") []) with (@nil N).
  rewrite (replace_delimited_copy STAR [] _ _ _ l [] Hs).
  change (replace_delimited [STAR] [STAR] (u "<em>") (u "</em>") [])
    with (@nil N).
  rewrite (replace_delimited_copy BACKTICK [] _ _ _ l [] Hb).
  change (replace_delimited [BACKTICK] [BACKTICK] (u "<code>") (u "</code>") [])
    with (@nil N).
  now rewrite !app_nil_r.
Qed.

(** X20. A line that does not begin with [#], is not white space only and
    has none of the characters [&], [<], [>], [*] and the backtick is
    rendered as itself between ["<p>"] and ["</p>"]. *)
Theorem plain_line_is_paragraph :
  forall line : jsstring,
    Forall (fun c => plain c /\ ~ delim c) line ->
    ~ all_ws line ->
    (forall r, line <> 35 :: r) ->
    render_line line = u "<p>" ++ line ++ u "</p>".
Proof.
  intros line Hc Hws Hh.
  assert (Hp : Forall plain line).
  { eapply Forall_impl; [|exact Hc]. intros c [H _]. exact H. }
  assert (Hd : Forall (fun c => ~ delim c) line).
  { eapply Forall_impl; [|exact Hc]. intros c [_ H]. exact H. }
  unfold render_line.
  change (u "###") with (35 :: u "##"). change (u "##") with (35 :: u "#").
  change (u "#") with (35 :: []).
  rewrite !(test_heading_not_hash _ _ Hh), (esc_plain _ Hp).
  destruct (trim line) as [|c r] eqn:E.
  - exfalso. now apply Hws, trim_nil.
  - simpl Nat.eqb. cbv iota. now rewrite (inline_no_delim _ Hd).
Qed.

Lemma plain_line_is_paragraph_witness :
  Forall (fun c => plain c /\ ~ delim c) (u " buy milk #1") /\
  ~ all_ws (u " buy milk #1") /\
  render_line (u " buy milk #1") = u "<p> buy milk #1</p>".
Proof.
  assert (H1 : Forall (fun c => plain c /\ ~ delim c) (u " buy milk #1")).
  { repeat constructor; try discriminate; intros [H|H]; discriminate H. }
  assert (H2 : ~ all_ws (u " buy milk #1")).
  { intros H. inversion H as [|? ? _ H']; subst. inversion H'; discriminate. }
  split; [exact H1|]. split; [exact H2|].
  apply (plain_line_is_paragraph (u " buy milk #1") H1 H2).
  intros r. discriminate.
Defined.

(** *** Escaping loses nothing *)

Lemma esc_char_prefix (c d : N) (x y : jsstring) :
  esc_char c ++ x = esc_char d ++ y -> c = d /\ x = y.
Proof.
  unfold esc_char.
  destruct (N.eqb_spec c AMP) as [->|C1];
    [|destruct (N.eqb_spec c LT) as [->|C2];
      [|destruct (N.eqb_spec c GT) as [->|C3]]];
  (destruct (N.eqb_spec d AMP) as [->|D1];
    [|destruct (N.eqb_spec d LT) as [->|D2];
      [|destruct (N.eqb_spec d GT) as [->|D3]]]);
  intros H; cbn in H; try discriminate H;
  try (injection H as H; split; [reflexivity|exact H]);
  try (injection H as H1 H2; subst; split; [reflexivity|reflexivity]);
  try (injection H as H1 H2; exfalso; unfold AMP in *; congruence).
Qed.

(** X21. [esc] is one to one: two texts that are escaped to the same
    text are the same text. *)
Theorem esc_injective :
  forall a b : jsstring, esc a = esc b -> a = b.
Proof.
  induction a as [|c a IH]; intros [|d b] H.
  - reflexivity.
  - rewrite esc_cons in H. destruct (esc_char_head d) as (x & r & E & _).
    rewrite E in H. discriminate.
  - rewrite esc_cons in H. destruct (esc_char_head c) as (x & r & E & _).
    rewrite E in H. discriminate.
  - rewrite !esc_cons in H. apply esc_char_prefix in H as [-> H].
    f_equal. now apply IH.
Qed.

Lemma esc_injective_witness :
  esc (u "a<b") = esc [97; 60; 98] /\ u "a<b" = [97; 60; 98].
Proof.
  split; [reflexivity|]. apply esc_injective. reflexivity.
Defined.

(** *** Headings *)

Lemma ws_not_hash (w : N) : is_ws w = true -> (35 =? w) = false.
Proof.
  intros H. apply N.eqb_neq. intros <-. discriminate H.
Qed.

Lemma match_heading_cons (h l : jsstring) :
  match_heading (35 :: h) (35 :: l) = match_heading h l.
Proof. reflexivity. Qed.

Lemma match_heading_hashes (j k : nat) (w : N) (rest : jsstring) :
  is_ws w = true ->
  match_heading (hashes j) (hashes k ++ w :: rest) =
  if (j =? k)%nat then Some (drop_ws rest) else None.
Proof.
  intros Hw. revert k. induction j as [|j IH]; intros [|k].
  - unfold match_heading. simpl. now rewrite Hw.
  - reflexivity.
  - unfold match_heading. cbn [hashes repeat app strip_prefix].
    now rewrite (ws_not_hash w Hw).
  - cbn [hashes repeat app]. rewrite match_heading_cons. apply IH.
Qed.

Lemma match_heading_more (j : nat) (rest : jsstring) :
  match_heading (hashes j) (hashes j ++ 35 :: rest) = None.
Proof.
  induction j as [|j IH]; [reflexivity|].
  cbn [hashes repeat app]. rewrite match_heading_cons. exact IH.
Qed.

(** X22. A line of one, two or three [#] followed by white space is a
    heading of that level: its text is the rest of the line without the
    white space after the [#], escaped, with no inline pattern applied.
    A line that begins with four [#] or more is a paragraph. *)
Theorem heading_levels :
  (forall (k : nat) (w : N) (rest : jsstring),
     (1 <= k <= 3)%nat ->
     is_ws w = true ->
     render_line (hashes k ++ w :: rest) =
       heading_open k ++ esc (drop_ws rest) ++ heading_close k) /\
  (forall (k : nat) (rest : jsstring),
     render_line (hashes (4 + k) ++ rest) =
       u "<p>" ++ inline (esc (hashes (4 + k) ++ rest)) ++ u "</p>").
Proof.
  split.
  - intros k w rest Hk Hw.
    unfold render_line, test_heading, strip_heading.
    change (u "###") with (hashes 3). change (u "##") with (hashes 2).
    change (u "#") with (hashes 1).
    rewrite !(match_heading_hashes _ k w rest Hw).
    destruct k as [|[|[|[|k]]]]; try lia; reflexivity.
  - intros k rest.
    assert (E3 : match_heading (hashes 3) (hashes (4 + k) ++ rest) = None).
    { change (hashes (4 + k) ++ rest)
        with (hashes 3 ++ 35 :: (hashes k ++ rest)).
      apply match_heading_more. }
    assert (E2 : match_heading (hashes 2) (hashes (4 + k) ++ rest) = None).
    { change (hashes (4 + k) ++ rest)
        with (hashes 2 ++ 35 :: (hashes (1 + k) ++ rest)).
      apply match_heading_more. }
    assert (E1 : match_heading (hashes 1) (hashes (4 + k) ++ rest) = None).
    { change (hashes (4 + k) ++ rest)
        with (hashes 1 ++ 35 :: (hashes (2 + k) ++ rest)).
      apply match_heading_more. }
    unfold render_line, test_heading, strip_heading.
    change (u "###") with (hashes 3). change (u "##") with (hashes 2).
    change (u "#") with (hashes 1).
    rewrite E3, E2, E1.
    destruct (trim (esc (hashes (4 + k) ++ rest))) eqn:E; [|reflexivity].
    exfalso. apply trim_nil, all_ws_esc in E. inversion E; discriminate.
Qed.

Lemma heading_levels_witness :
  (1 <= 2 <= 3)%nat /\ is_ws 32 = true /\
  render_line (u "##   **Plan** <1>") = u "<h2>**Plan** &lt;1&gt;</h2>" /\
  render_line (u "#### x") = u "<p>#### x</p>".
Proof.
  split; [lia|]. split; [reflexivity|]. split.
  - exact (proj1 heading_levels 2%nat 32 (u "  **Plan** <1>")
             ltac:(lia) eq_refl).
  - exact (proj2 heading_levels 0%nat (u " x")).
Defined.

(** *** The inline patterns *)

Lemma lazy_more_found (k : N) (close a r : jsstring) :
  Forall (fun c => is_line_terminator c = false /\ c <> k) a ->
  lazy_more (k :: close) (a ++ (k :: close) ++ r) = Some (a, r).
Proof.
  induction 1 as [|c a [Hc1 Hc2] _ IH].
  - cbn [app lazy_more].
    assert (E : strip_prefix (k :: close) ((k :: close) ++ r) = Some r)
      by now apply strip_prefix_app.
    simpl app in E. destruct r; cbn [lazy_more]; now rewrite E.
  - simpl app. cbn [lazy_more].
    assert (E : strip_prefix (k :: close) (c :: a ++ k :: close ++ r) = None).
    { cbn [strip_prefix]. apply not_eq_sym, N.eqb_neq in Hc2. now rewrite Hc2. }
    rewrite E, Hc1. simpl app in IH. now rewrite IH.
Qed.

(** A run without the delimiter between the two delimiters is the
    whole match. *)
Lemma replace_delimited_run (k : N) (open close pre post a : jsstring) :
  a <> [] ->
  Forall (fun c => is_line_terminator c = false /\ c <> k) a ->
  replace_delimited (k :: open) (k :: close) pre post
    ((k :: open) ++ a ++ (k :: close)) = pre ++ a ++ post.
Proof.
  intros Hne Ha. simpl app. rewrite replace_delimited_cons.
  assert (E : match_at (k :: open) (k :: close) (k :: open ++ a ++ k :: close)
              = Some (a, [])).
  { destruct a as [|c a]; [contradiction|].
    inversion Ha as [|? ? [Hc1 Hc2] Ha']; subst.
    pose proof (lazy_more_found k close a [] Ha') as El.
    rewrite app_nil_r in El.
    assert (Es : strip_prefix (k :: open) (k :: open ++ (c :: a) ++ k :: close)
                 = Some (c :: a ++ k :: close)) by now apply strip_prefix_app.
    unfold match_at. rewrite Es, Hc1, El. reflexivity. }
  rewrite E. change (replace_delimited (k :: open) (k :: close) pre post [])
    with (@nil N). now rewrite app_nil_r.
Qed.

Lemma ordinary_parts (a : jsstring) :
  Forall ordinary a ->
  Forall plain a /\
  Forall (fun c => is_line_terminator c = false /\ c <> STAR) a /\
  Forall (fun c => is_line_terminator c = false /\ c <> BACKTICK) a /\
  Forall (fun c => c <> STAR) a /\ Forall (fun c => c <> BACKTICK) a.
Proof.
  intros H. repeat split; (eapply Forall_impl; [|exact H]);
    intros c (Hp & Hd & Hl); auto; try (split; [exact Hl|]);
    intros ->; apply Hd; (now left) || (now right).
Qed.

Lemma copy_all (o : N) (open close pre post w : jsstring) :
  Forall (fun x => x <> o) w ->
  replace_delimited (o :: open) close pre post w = w.
Proof.
  intros H. rewrite <- (app_nil_r w) at 1.
  rewrite (replace_delimited_copy o open close pre post w [] H).
  now rewrite app_nil_r.
Qed.

Ltac no_char := repeat constructor; discriminate.

(** X23. A run of one character or more, without [&], [<], [>], [*],
    backtick or line terminator, is rendered as bold between two pairs of
    [*], as italic between two [*], and as code between two backticks,
    each in a paragraph. *)
Theorem inline_patterns :
  forall a : jsstring,
    a <> [] ->
    Forall ordinary a ->
    render_line (u "**" ++ a ++ u "**") =
      u "<p><strong>" ++ a ++ u "</strong></p>" /\
    render_line (u "*" ++ a ++ u "*") = u "<p><em>" ++ a ++ u "</em></p>" /\
    render_line ([BACKTICK] ++ a ++ [BACKTICK]) =
      u "<p><code>" ++ a ++ u "</code></p>".
Proof.
  intros a Hne Ha.
  destruct (ordinary_parts a Ha) as (Hp & Hs & Hb & Hs' & Hb').
  assert (Hplain : forall pre post, Forall plain pre -> Forall plain post ->
                                    esc (pre ++ a ++ post) = pre ++ a ++ post).
  { intros pre post H1 H2. apply esc_plain.
    repeat (apply Forall_app; split); assumption. }
  assert (Hrender : forall l c t,
            l = c :: t -> c <> 35 -> is_ws c = false -> Forall plain l ->
            render_line l = u "<p>" ++ inline l ++ u "</p>").
  { intros l c t -> Hc Hw Hl. unfold render_line.
    change (u "###") with (35 :: u "##"). change (u "##") with (35 :: u "#").
    change (u "#") with (35 :: []).
    rewrite !test_heading_not_hash by (intros r E; injection E as E _; contradiction).
    rewrite (esc_plain _ Hl).
    destruct (trim (c :: t)) eqn:E; [|reflexivity].
    exfalso. apply trim_nil in E. inversion E; congruence. }
  split; [|split].
  - change (u "**") with [STAR; STAR].
    rewrite (Hrender ([STAR; STAR] ++ a ++ [STAR; STAR]) STAR
               (STAR :: a ++ [STAR; STAR]) eq_refl);
      [|discriminate|reflexivity
       |repeat (apply Forall_app; split); try assumption;
        repeat constructor; discriminate].
    unfold inline.
    rewrite (replace_delimited_run STAR [STAR] [STAR] _ _ a Hne Hs).
    rewrite (copy_all STAR [] [STAR]);
      [|repeat (apply Forall_app; split); try assumption; no_char].
    rewrite (copy_all BACKTICK [] [BACKTICK]);
      [|repeat (apply Forall_app; split); try assumption; no_char].
    now rewrite <- !app_assoc.
  - change (u "*") with [STAR].
    rewrite (Hrender ([STAR] ++ a ++ [STAR]) STAR (a ++ [STAR]) eq_refl);
      [|discriminate|reflexivity
       |repeat (apply Forall_app; split); try assumption;
        repeat constructor; discriminate].
    unfold inline.
    assert (Ebold : replace_delimited [STAR; STAR] [STAR; STAR]
                      (u "<strong>") (u "</strong>") ([STAR] ++ a ++ [STAR])
                    = [STAR] ++ a ++ [STAR]).
    { simpl app. rewrite replace_delimited_cons.
      destruct a as [|c a']; [contradiction|].
      inversion Hs' as [|? ? Hc _]; subst.
      assert (Em : match_at [STAR; STAR] [STAR; STAR]
                     (STAR :: (c :: a') ++ [STAR]) = None).
      { unfold match_at. cbn [app strip_prefix]. rewrite N.eqb_refl.
        apply not_eq_sym, N.eqb_neq in Hc. now rewrite Hc. }
      rewrite Em. f_equal.
      rewrite (replace_delimited_copy STAR [STAR] _ _ _ (c :: a') [STAR] Hs').
      reflexivity. }
    rewrite Ebold.
    rewrite (replace_delimited_run STAR [] [] _ _ a Hne Hs).
    rewrite (copy_all BACKTICK [] [BACKTICK]);
      [|repeat (apply Forall_app; split); try assumption; no_char].
    now rewrite <- !app_assoc.
  - rewrite (Hrender ([BACKTICK] ++ a ++ [BACKTICK]) BACKTICK
               (a ++ [BACKTICK]) eq_refl);
      [|discriminate|reflexivity
       |repeat (apply Forall_app; split); try assumption;
        repeat constructor; discriminate].
    unfold inline.
    rewrite (copy_all STAR [STAR] [STAR; STAR]);
      [|repeat (apply Forall_app; split); try assumption; no_char].
    rewrite (copy_all STAR [] [STAR]);
      [|repeat (apply Forall_app; split); try assumption; no_char].
    rewrite (replace_delimited_run BACKTICK [] [] _ _ a Hne Hb).
    now rewrite <- !app_assoc.
Qed.

Lemma inline_patterns_witness :
  u "to do" <> [] /\
  Forall ordinary (u "to do") /\
  render_line (u "**to do**") = u "<p><strong>to do</strong></p>" /\
  render_line (u "*to do*") = u "<p><em>to do</em></p>" /\
  render_line (u "`to do`") = u "<p><code>to do</code></p>".
Proof.
  assert (H : Forall ordinary (u "to do")).
  { repeat constructor; try discriminate; intros [E|E]; discriminate E. }
  split; [discriminate|]. split; [exact H|].
  exact (inline_patterns (u "to do") ltac:(discriminate) H).
Defined.

End MarkdownExtras.

(** ** The search field *)

Module SearchExtras.
Import Store StoreFacts.

(** X24. A search text that is empty or white space only filters
    nothing (the lower-case form of the empty string being empty): the
    sidebar lists every note. *)
Theorem blank_search_lists_all :
  forall (toLowerCase : jsstring -> jsstring) (ns : list Note) (search : jsstring),
    toLowerCase [] = [] ->
    all_ws search ->
    filteredNotes toLowerCase ns search = ns /\
    visibleNotes toLowerCase ns search = Sidebar_sorted ns /\
    Permutation ns (visibleNotes toLowerCase ns search).
Proof.
  intros lower ns search Hl Hws.
  assert (E : filteredNotes lower ns search = ns).
  { unfold filteredNotes. apply trim_nil in Hws. now rewrite Hws, Hl. }
  split; [exact E|]. unfold visibleNotes. rewrite E.
  split; [reflexivity|apply Sidebar_sorted_perm].
Qed.

Lemma blank_search_lists_all_witness :
  lower_ascii [] = [] /\
  all_ws (u "   ") /\
  visibleNotes lower_ascii [noteX; noteY; noteZ] (u "   ") = [noteZ; noteY; noteX].
Proof.
  assert (H : all_ws (u "   ")) by (repeat constructor).
  split; [reflexivity|]. split; [exact H|].
  rewrite (proj1 (proj2 (blank_search_lists_all lower_ascii
                           [noteX; noteY; noteZ] (u "   ") eq_refl H))).
  reflexivity.
Defined.

End SearchExtras.
